(** * Tic-Tac-Toe (script.js): board evaluator and minimax move selector

    A shallow embedding of the game core of [src/script.js]:
    [WINS], [evaluateBoard], [minimax], [aiMove], [placeMark],
    [handleEndIfAny], [onCellClick] and [init], together with the
    properties of the evaluator and of the alpha-beta search; then the
    page around them ([updateStatus], [highlightWin], [disableAll],
    [getSelectedMark] and the writes to the buttons) and the properties
    of whole games. *)

From Stdlib Require Import ZArith Lia Bool.
From stdpp Require Import base decidable option list strings.

Local Open Scope Z_scope.

(** ** Data model *)

(** A mark is the string ['X'] or ['O']. *)
Inductive Mark : Type := X | O.

#[global] Instance Mark_eq_dec : EqDecision Mark.
Proof. solve_decision. Defined.

(** A cell is [null] (here [None]) or a mark.  The board is the JS array
    [board]; [Array(9).fill(null)] at the start of a game. *)
Abbreviation Cell := (option Mark).
Abbreviation Board := (list (option Mark)).

Definition emptyBoard : Board := replicate 9 None.

(** [b[i]]: reading past the end gives [undefined], which is falsy and
    different from every mark, exactly like [null]. *)
Definition cellAt (b : Board) (i : nat) : Cell :=
  match b !! i with
  | Some c => c
  | None => None
  end.

(** JS truthiness of a cell: only a mark is truthy. *)
Definition truthy (c : Cell) : bool :=
  match c with
  | Some _ => true
  | None => false
  end.

(** [player === 'X' ? 'O' : 'X'] *)
Definition other (p : Mark) : Mark :=
  match p with
  | X => O
  | O => X
  end.

(** [a === b] on marks. *)
Definition mark_eqb (p q : Mark) : bool := bool_decide (p = q).

(** [a === b] on cells. *)
Definition cell_eqb (c d : Cell) : bool := bool_decide (c = d).

(** A line is a triple of indices. *)
Definition Line : Type := (nat * nat * nat)%type.

Definition WINS : list Line :=
  [ (0, 1, 2); (3, 4, 5); (6, 7, 8);   (* rows *)
    (0, 3, 6); (1, 4, 7); (2, 5, 8);   (* cols *)
    (0, 4, 8); (2, 4, 6) ]%nat.        (* diagonals *)

(** The object returned by [evaluateBoard]: [{winner, line}],
    [{draw: true}] or [{ongoing: true}]. *)
Inductive Outcome : Type :=
  | Won (winner : Mark) (line : Line)
  | Draw
  | Ongoing.

#[global] Instance Outcome_eq_dec : EqDecision Outcome.
Proof. solve_decision. Defined.

(** ** Board evaluation *)

(** The test of the [if] in the loop of [evaluateBoard],
    [b[a] && b[a] === b[b2] && b[a] === b[c]], together with the value
    [b[a]] that becomes [winner] when the test passes. *)
Definition lineWinner (b : Board) (l : Line) : option Mark :=
  let '(a, b2, c) := l in
  match cellAt b a with
  | Some w =>
      if cell_eqb (cellAt b a) (cellAt b b2) && cell_eqb (cellAt b a) (cellAt b c)
      then Some w
      else None
  | None => None
  end.

(** The [for (const line of WINS)] loop: the first line that passes the
    test ends the function with [{ winner: b[a], line }]. *)
Fixpoint scanLines (b : Board) (ls : list Line) : option Outcome :=
  match ls with
  | [] => None
  | l :: rest =>
      match lineWinner b l with
      | Some w => Some (Won w l)
      | None => scanLines b rest
      end
  end.

(** [b.every(v => v)] *)
Definition boardFull (b : Board) : bool := forallb truthy b.

Definition evaluateBoard (b : Board) : Outcome :=
  match scanLines b WINS with
  | Some r => r
  | None => if boardFull b then Draw else Ongoing
  end.

(** ** Scores *)

(** The numbers the search computes with: [-Infinity], [+Infinity] and
    the integers in between ([+10], [-10], [0] are the only finite ones
    the code writes). *)
Inductive num : Type :=
  | NegInf
  | Fin (z : Z)
  | PosInf.

#[global] Instance num_eq_dec : EqDecision num.
Proof. solve_decision. Defined.

(** [x < y] *)
Definition num_ltb (x y : num) : bool :=
  match x, y with
  | NegInf, NegInf => false
  | NegInf, _ => true
  | Fin _, NegInf => false
  | Fin a, Fin b => a <? b
  | Fin _, PosInf => true
  | PosInf, _ => false
  end.

(** [x <= y] *)
Definition num_leb (x y : num) : bool :=
  match x, y with
  | NegInf, _ => true
  | Fin _, NegInf => false
  | Fin a, Fin b => a <=? b
  | Fin _, PosInf => true
  | PosInf, PosInf => true
  | PosInf, _ => false
  end.

(** [Math.max(x, y)] and [Math.min(x, y)] *)
Definition num_max (x y : num) : num := if num_ltb x y then y else x.
Definition num_min (x y : num) : num := if num_ltb y x then y else x.

(** ** The search *)

(** The object [{ score, index }] returned by [minimax]; [index] is
    [undefined] ([None]) in the three terminal returns, and when
    [empty[0]] is read from an empty array. *)
Record Best : Type := mkBest { score : num; index : option nat }.

(** [b.map((v,i) => v ? null : i).filter(i => i !== null)] *)
Definition emptyCells (b : Board) : list nat :=
  omap id (imap (fun i v => if truthy v then None else Some i) b).

Section Search.

(** The global [aiMark]. *)
Variable aiMark : Mark.

(** The [for (const idx of empty)] loop of [minimax].  [rec] is the
    recursive call; the board is the one shared array, written before
    the call and reset to [null] after it, so it is threaded through.
    Every [idx] is taken from [empty], the indices of cells of the
    array, so both writes are in range.  The loop ends at the end of
    [empty] or at the [break]. *)
Fixpoint searchLoop (rec : Board -> Mark -> num -> num -> option (Best * Board))
    (player : Mark) (empty : list nat) (b : Board) (alpha beta : num)
    (best : Best) : option (Best * Board) :=
  match empty with
  | [] => Some (best, b)
  | idx :: rest =>
      let b1 := <[idx := Some player]> b in
      match rec b1 (other player) alpha beta with
      | None => None
      | Some (next, b2) =>
          let b3 := <[idx := None]> b2 in
          let withIdx := mkBest (score next) (Some idx) in
          let '(best', alpha', beta') :=
            if mark_eqb player aiMark then
              (if num_ltb (score best) (score withIdx) then withIdx else best,
               num_max alpha (score withIdx), beta)
            else
              (if num_ltb (score withIdx) (score best) then withIdx else best,
               alpha, num_min beta (score withIdx)) in
          if num_leb beta' alpha' then Some (best', b3)   (* prune *)
          else searchLoop rec player rest b3 alpha' beta' best'
      end
  end.

(** [minimax(b, player, alpha, beta)].  The recursion of the source is
    on the board; here it is structural on [fuel], one unit per nested
    call, and [None] means the fuel ran out.  The result carries the
    board as the call leaves it. *)
Fixpoint minimax (fuel : nat) (b : Board) (player : Mark) (alpha beta : num)
    : option (Best * Board) :=
  match fuel with
  | 0%nat => None
  | S fuel' =>
      match evaluateBoard b with
      | Won w _ =>
          if mark_eqb w aiMark then Some (mkBest (Fin 10) None, b)
          else Some (mkBest (Fin (-10)) None, b)
      | Draw => Some (mkBest (Fin 0) None, b)
      | Ongoing =>
          let empty := emptyCells b in
          let best :=
            mkBest (if mark_eqb player aiMark then NegInf else PosInf)
                   (head empty) in
          searchLoop (minimax fuel') player empty b alpha beta best
      end
  end.

(** [minimax] as the source has it but for the line
    [if (beta <= alpha) break;], which is left out: the loop always runs
    to the end of [empty]. *)
Fixpoint searchLoopNoCut (rec : Board -> Mark -> num -> num -> option (Best * Board))
    (player : Mark) (empty : list nat) (b : Board) (alpha beta : num)
    (best : Best) : option (Best * Board) :=
  match empty with
  | [] => Some (best, b)
  | idx :: rest =>
      let b1 := <[idx := Some player]> b in
      match rec b1 (other player) alpha beta with
      | None => None
      | Some (next, b2) =>
          let b3 := <[idx := None]> b2 in
          let withIdx := mkBest (score next) (Some idx) in
          let '(best', alpha', beta') :=
            if mark_eqb player aiMark then
              (if num_ltb (score best) (score withIdx) then withIdx else best,
               num_max alpha (score withIdx), beta)
            else
              (if num_ltb (score withIdx) (score best) then withIdx else best,
               alpha, num_min beta (score withIdx)) in
          searchLoopNoCut rec player rest b3 alpha' beta' best'
      end
  end.

Fixpoint minimax_nocut (fuel : nat) (b : Board) (player : Mark) (alpha beta : num)
    : option (Best * Board) :=
  match fuel with
  | 0%nat => None
  | S fuel' =>
      match evaluateBoard b with
      | Won w _ =>
          if mark_eqb w aiMark then Some (mkBest (Fin 10) None, b)
          else Some (mkBest (Fin (-10)) None, b)
      | Draw => Some (mkBest (Fin 0) None, b)
      | Ongoing =>
          let empty := emptyCells b in
          let best :=
            mkBest (if mark_eqb player aiMark then NegInf else PosInf)
                   (head empty) in
          searchLoopNoCut (minimax_nocut fuel') player empty b alpha beta best
      end
  end.

(** The reference search of the pruning claim: minimax as the
    specification words it, without alpha, beta and the cutoff.  A
    maximising node (the computer to move) takes the highest score of
    its children, a minimising node the lowest; each child is the
    board with the mark placed on one empty cell, in increasing index
    order. *)
Fixpoint plainLoop (rec : Board -> Mark -> option num)
    (player : Mark) (empty : list nat) (b : Board) (best : num) : option num :=
  match empty with
  | [] => Some best
  | idx :: rest =>
      match rec (<[idx := Some player]> b) (other player) with
      | None => None
      | Some s =>
          plainLoop rec player rest b
            (if mark_eqb player aiMark then num_max best s else num_min best s)
      end
  end.

Fixpoint minimax_plain (fuel : nat) (b : Board) (player : Mark) : option num :=
  match fuel with
  | 0%nat => None
  | S fuel' =>
      match evaluateBoard b with
      | Won w _ => if mark_eqb w aiMark then Some (Fin 10) else Some (Fin (-10))
      | Draw => Some (Fin 0)
      | Ongoing =>
          plainLoop (minimax_plain fuel') player (emptyCells b) b
            (if mark_eqb player aiMark then NegInf else PosInf)
      end
  end.

End Search.

(** ** The game session *)

(** The value of the mode selector: ['pvp'] or ['ai']. *)
Inductive Mode : Type := PvP | AI.

#[global] Instance Mode_eq_dec : EqDecision Mode.
Proof. solve_decision. Defined.

(** The globals [board, current, gameOver, mode, humanMark, aiMark]. *)
Record Session : Type := mkSession {
  board : Board;
  current : Mark;
  gameOver : bool;
  mode : Mode;
  humanMark : Mark;
  aiMark : Mark
}.

Definition withBoard (s : Session) (b : Board) : Session :=
  mkSession b (current s) (gameOver s) (mode s) (humanMark s) (aiMark s).

Definition withCurrent (s : Session) (c : Mark) : Session :=
  mkSession (board s) c (gameOver s) (mode s) (humanMark s) (aiMark s).

Definition withGameOver (s : Session) (g : bool) : Session :=
  mkSession (board s) (current s) g (mode s) (humanMark s) (aiMark s).

(** What a call of the session can end in: a value, an uncaught
    [TypeError], or the fuel of the search model running out. *)
Inductive result (A : Type) : Type :=
  | Ok (a : A)
  | TypeError
  | OutOfFuel.
Arguments Ok {A} a.
Arguments TypeError {A}.
Arguments OutOfFuel {A}.

Definition bind {A B : Type} (m : result A) (k : A -> result B) : result B :=
  match m with
  | Ok a => k a
  | TypeError => TypeError
  | OutOfFuel => OutOfFuel
  end.

Notation "'do' x <- m ; k" := (bind m (fun x => k))
  (at level 10, x name, m at level 100, k at level 200).

(** [placeMark(idx, mark)]: [board[idx] = mark], then the button
    [cells[idx]] is updated.  The page has the nine buttons 0..8; for any
    other [idx] (also [undefined]) [cells[idx]] is [undefined] and the
    property write throws. *)
Definition placeMark (idx : option nat) (mark : Mark) (s : Session) : result Session :=
  match idx with
  | Some i =>
      if (i <? 9)%nat then Ok (withBoard s (<[i := Some mark]> (board s)))
      else TypeError
  | None => TypeError
  end.

(** [handleEndIfAny(result)]: sets [gameOver] on a win or a draw and
    tells whether the game ended (the status text, the highlight and the
    disabling of the buttons are presentation). *)
Definition handleEndIfAny (r : Outcome) (s : Session) : bool * Session :=
  match r with
  | Won _ _ => (true, withGameOver s true)
  | Draw => (true, withGameOver s true)
  | Ongoing => (false, s)
  end.

(** The preference order of the opening. *)
Definition openingOrder : list nat := [4; 0; 2; 6; 8; 1; 3; 5; 7]%nat.

(** [board.filter(Boolean).length] *)
Definition countMarks (b : Board) : nat := length (List.filter truthy b).

(** The choice of the index in [aiMove] (the [if]/[else] before the two
    [placeMark] calls): the opening when at most one mark is on the
    board, the index of [minimax] otherwise.  The board is returned as
    the search leaves it. *)
Definition selectMove (ai : Mark) (fuel : nat) (b : Board) : option (option nat * Board) :=
  if (countMarks b <=? 1)%nat then
    Some (List.find (fun i => negb (truthy (cellAt b i))) openingOrder, b)
  else
    match minimax ai fuel b ai NegInf PosInf with
    | Some (r, b') => Some (index r, b')
    | None => None
    end.

(** [aiMove()] *)
Definition aiMove (fuel : nat) (s : Session) : result Session :=
  match selectMove (aiMark s) fuel (board s) with
  | None => OutOfFuel
  | Some (idx, b') =>
      do s1 <- placeMark idx (aiMark s) (withBoard s b');
      let '(ended, s2) := handleEndIfAny (evaluateBoard (board s1)) s1 in
      if ended then Ok s2
      else Ok (withCurrent s2 (other (current s2)))
  end.

(** [onCellClick(e)] for a click on the button with [data-index] [idx].
    The [setTimeout(aiMove, 150)] is run at once: the delay is pacing
    only. *)
Definition onCellClick (fuel : nat) (idx : nat) (s : Session) : result Session :=
  if gameOver s then Ok s
  else if truthy (cellAt (board s) idx) then Ok s   (* already filled *)
  else
    do s1 <- placeMark (Some idx) (current s) s;
    let '(ended, s2) := handleEndIfAny (evaluateBoard (board s1)) s1 in
    if ended then Ok s2
    else
      let s3 := withCurrent s2 (other (current s2)) in
      if bool_decide (mode s3 = AI) && mark_eqb (current s3) (aiMark s3)
         && negb (gameOver s3)
      then aiMove fuel s3
      else Ok s3.

(** [init()], with the two values it reads from the page. *)
Definition init (fuel : nat) (m : Mode) (human : Mark) : result Session :=
  let s := mkSession (replicate 9 None) X false m human
                     (if mark_eqb human X then O else X) in
  if bool_decide (m = AI) && mark_eqb human O then aiMove fuel s
  else Ok s.

(** A game: [init], then the clicks one after the other. *)
Fixpoint clicks (fuel : nat) (idxs : list nat) (s : Session) : result Session :=
  match idxs with
  | [] => Ok s
  | idx :: rest => do s' <- onCellClick fuel idx s; clicks fuel rest s'
  end.

Definition playGame (fuel : nat) (human : Mark) (idxs : list nat) : result Session :=
  do s <- init fuel AI human; clicks fuel idxs s.

(** ** Specification-side notions *)

(** The three cells of a line hold the same mark [m]. *)
Definition lineComplete (b : Board) (l : Line) (m : Mark) : Prop :=
  cellAt b l.1.1 = Some m /\ cellAt b l.1.2 = Some m /\ cellAt b l.2 = Some m.

(** [l] is the first line of [WINS], in its order, that is complete. *)
Definition firstComplete (b : Board) (l : Line) (m : Mark) : Prop :=
  exists pre post,
    WINS = pre ++ l :: post /\ lineComplete b l m /\
    forall l' m', l' ∈ pre -> ~ lineComplete b l' m'.

(** No line of [WINS] is complete. *)
Definition noLine (b : Board) : Prop :=
  forall l m, l ∈ WINS -> ~ lineComplete b l m.

(** Number of empty cells: the measure of the recursion of [minimax]. *)
Definition countEmpty (b : Board) : nat := length (emptyCells b).

(** The order of the scores as propositions. *)
Definition num_lt (x y : num) : Prop := num_ltb x y = true.
Definition num_le (x y : num) : Prop := num_leb x y = true.

(** The three scores a finished game has. *)
Definition isScore (s : num) : Prop := s = Fin (-10) \/ s = Fin 0 \/ s = Fin 10.

(** What every finished call of a search tells: the board is as before
    and the score is one of the three scores. *)
Definition callSound (rec : Board -> Mark -> num -> num -> option (Best * Board)) : Prop :=
  forall b p alpha beta r b',
    rec b p alpha beta = Some (r, b') -> b' = b /\ isScore (score r).

(** What a search with window [(alpha, beta)] that returned [r] tells
    about the true value [v] of the node: inside the window [r] is the
    value, at or below [alpha] it is an upper bound of it, at or above
    [beta] a lower bound. *)
Definition withinWindow (alpha beta v r : num) : Prop :=
  (num_le r alpha -> num_le v r) /\
  (num_le beta r -> num_le r v) /\
  (num_lt alpha r -> num_lt r beta -> v = r).

(** The pruned search [rec] and the reference search [prec], called on
    the children of [b] with a window that is not empty, both finish,
    leave the board as it was, and agree up to the window. *)
Definition childrenAgree (rec : Board -> Mark -> num -> num -> option (Best * Board))
    (prec : Board -> Mark -> option num) (p : Mark) (b : Board) : Prop :=
  forall idx alpha beta,
    b !! idx = Some None -> num_lt alpha beta ->
    exists next v,
      rec (<[idx:=Some p]> b) (other p) alpha beta = Some (next, <[idx:=Some p]> b) /\
      prec (<[idx:=Some p]> b) (other p) = Some v /\
      withinWindow alpha beta v (score next).

(** The session of a game against [human] agrees with its board: the
    marks are the ones [init] set, the game is over exactly when the
    board is won or drawn, and a won board is won by the computer. *)
Definition sessionSound (human : Mark) (s : Session) : bool :=
  mark_eqb (humanMark s) human && mark_eqb (aiMark s) (other human) &&
  match evaluateBoard (board s) with
  | Won w _ => mark_eqb w (other human) && gameOver s
  | Draw => gameOver s
  | Ongoing => negb (gameOver s)
  end.

(** Every game that continues [s] passes through sound sessions only,
    whatever cells the opponent clicks, and is over after at most
    [depth] accepted clicks. *)
Fixpoint allGamesSound (human : Mark) (depth fuel : nat) (s : Session) : bool :=
  sessionSound human s &&
  (gameOver s ||
   match depth with
   | 0%nat => false
   | S d =>
       forallb (fun idx =>
                  if truthy (cellAt (board s) idx) then true
                  else match onCellClick fuel idx s with
                       | Ok s' => allGamesSound human d fuel s'
                       | _ => false
                       end)
               (seq 0 9)
   end).

(** A sequence of legal moves of the opponent from [s]: each click is
    on one of the nine cells, made while the game is not over, on a cell
    that is empty at that moment. *)
Fixpoint legalClicks (fuel : nat) (idxs : list nat) (s : Session) : Prop :=
  match idxs with
  | [] => True
  | idx :: rest =>
      (idx < 9)%nat /\ gameOver s = false /\ cellAt (board s) idx = None /\
      match onCellClick fuel idx s with
      | Ok s' => legalClicks fuel rest s'
      | _ => False
      end
  end.

(** ** Notions for the properties of the session *)


(** The test of [onCellClick] that hands the turn to the computer:
    [mode === 'ai' && current === aiMark && !gameOver]. *)
Definition computerToMove (s : Session) : bool :=
  bool_decide (mode s = AI) && mark_eqb (current s) (aiMark s) && negb (gameOver s).

(** The session after [evaluateBoard] and [handleEndIfAny] on a board
    [b] that was just written, as [onCellClick] and [aiMove] both go on:
    over on a win or a draw, the turn passed otherwise. *)
Definition afterMove (s : Session) (b : Board) : Session :=
  match evaluateBoard b with
  | Ongoing => withCurrent (withBoard s b) (other (current s))
  | _ => withGameOver (withBoard s b) true
  end.


(** The session [init] builds before it lets the computer open. *)
Definition startSession (m : Mode) (human : Mark) : Session :=
  mkSession (replicate 9 None) X false m human (if mark_eqb human X then O else X).

(** [placed s s']: [s'] comes from [s] by placements, each one the mark
    of the player to move written on a cell that reads empty, on one of
    the nine buttons, while the game is not over, followed by the
    evaluation of the board. *)
Inductive placed : Session -> Session -> Prop :=
  | placed_none (s : Session) : placed s s
  | placed_move (s s' : Session) (i : nat) :
      gameOver s = false ->
      cellAt (board s) i = None ->
      (i < 9)%nat ->
      placed (afterMove s (<[i := Some (current s)]> (board s))) s' ->
      placed s s'.

(** ** Notions for the properties of the search *)

(** In the scan order [l] of the empty cells, [i] is the first cell
    whose child (the board with the mark of [p] on it, the other player
    to move) has the value [s] under the search [prec], and no child has
    a value above [s]: every cell before [i] has a value below [s],
    every cell after it a value at most [s]. *)
Definition firstBest (prec : Board -> Mark -> option num) (p : Mark) (b : Board)
    (l : list nat) (i : nat) (s : num) : Prop :=
  exists pre post,
    l = pre ++ i :: post /\
    prec (<[i := Some p]> b) (other p) = Some s /\
    (forall j, j ∈ pre ->
       exists v, prec (<[j := Some p]> b) (other p) = Some v /\ num_lt v s) /\
    (forall j, j ∈ post ->
       exists v, prec (<[j := Some p]> b) (other p) = Some v /\ num_le v s).

(** The score of the root call of the search, as [aiMove] makes it. *)
Definition rootScore (ai : Mark) (fuel : nat) (b : Board) (p : Mark) : option num :=
  match minimax ai fuel b p NegInf PosInf with
  | Some (r, _) => Some (score r)
  | None => None
  end.


(** ** The page *)

(** One of the nine buttons [cells[i]]: its [textContent], its
    [disabled] flag, and whether its class list holds ['winning']. *)
Record Button : Type := mkButton {
  textContent : string;
  disabled : bool;
  winning : bool
}.

(** The session together with what the page shows of it: the buttons
    [cells] and the text of the status line [statusEl]. *)
Record Page : Type := mkPage {
  session : Session;
  cells : list Button;
  statusText : string
}.

(** The mark as the string it is in the source. *)
Definition markText (m : Mark) : string :=
  match m with
  | X => "X"
  | O => "O"
  end.

(** [getSelectedMark()]: the value of the checked radio button, ['X']
    when none is checked. *)
Definition getSelectedMark (checked : option Mark) : Mark :=
  match checked with
  | Some m => m
  | None => X
  end.

(** [updateStatus(message)]; a call without argument, or with the empty
    string, takes the second part. *)
Definition updateStatus (message : option string) (p : Page) : Page :=
  match message with
  | Some (String _ _ as msg) => mkPage (session p) (cells p) msg
  | _ =>
      if gameOver (session p) then p
      else
        match mode (session p) with
        | PvP =>
            mkPage (session p) (cells p)
                   ("Turn: " +:+ markText (current (session p)))
        | AI =>
            let who :=
              if mark_eqb (current (session p)) (humanMark (session p))
              then "Your" else "AI" in
            mkPage (session p) (cells p)
                   (who +:+ " turn: " +:+ markText (current (session p)))
        end
  end.

(** [cells[i].classList.add('winning')] *)
Definition addWinning (i : nat) (cs : list Button) : list Button :=
  alter (fun btn => mkButton (textContent btn) (disabled btn) true) i cs.

(** [highlightWin(line)]; the line is one of [WINS], so its three
    indices are buttons of the page. *)
Definition highlightWin (l : Line) (p : Page) : Page :=
  let '(a, b2, c) := l in
  mkPage (session p) (addWinning c (addWinning b2 (addWinning a (cells p))))
         (statusText p).

(** [disableAll()] *)
Definition disableAll (p : Page) : Page :=
  mkPage (session p)
         ((fun btn => mkButton (textContent btn) true (winning btn)) <$> cells p)
         (statusText p).

(** [placeMark(idx, mark)] with its two writes to the button; a button
    that does not exist makes the write throw. *)
Definition placeMarkPage (idx : option nat) (mark : Mark) (p : Page) : result Page :=
  do s <- placeMark idx mark (session p);
  match idx with
  | Some i =>
      match cells p !! i with
      | Some _ =>
          Ok (mkPage s
                (alter (fun btn => mkButton (markText mark) true (winning btn)) i (cells p))
                (statusText p))
      | None => TypeError
      end
  | None => TypeError
  end.

(** [handleEndIfAny(result)] with the highlight, the status text and
    the disabling of the buttons. *)
Definition handleEndIfAnyPage (r : Outcome) (p : Page) : bool * Page :=
  match r with
  | Won w l =>
      let p1 := mkPage (withGameOver (session p) true) (cells p) (statusText p) in
      (true, disableAll (updateStatus (Some (markText w +:+ " wins!")) (highlightWin l p1)))
  | Draw =>
      let p1 := mkPage (withGameOver (session p) true) (cells p) (statusText p) in
      (true, disableAll (updateStatus (Some "It's a draw.") p1))
  | Ongoing => (false, p)
  end.

(** [aiMove()] on the page. *)
Definition aiMovePage (fuel : nat) (p : Page) : result Page :=
  let s := session p in
  match selectMove (aiMark s) fuel (board s) with
  | None => OutOfFuel
  | Some (idx, b') =>
      do p1 <- placeMarkPage idx (aiMark s) (mkPage (withBoard s b') (cells p) (statusText p));
      let '(ended, p2) := handleEndIfAnyPage (evaluateBoard (board (session p1))) p1 in
      if ended then Ok p2
      else
        Ok (updateStatus None
              (mkPage (withCurrent (session p2) (other (current (session p2))))
                      (cells p2) (statusText p2)))
  end.

(** [onCellClick(e)] on the page, the [setTimeout(aiMove, 150)] run at
    once. *)
Definition onCellClickPage (fuel : nat) (idx : nat) (p : Page) : result Page :=
  if gameOver (session p) then Ok p
  else if truthy (cellAt (board (session p)) idx) then Ok p
  else
    do p1 <- placeMarkPage (Some idx) (current (session p)) p;
    let '(ended, p2) := handleEndIfAnyPage (evaluateBoard (board (session p1))) p1 in
    if ended then Ok p2
    else
      let p3 := mkPage (withCurrent (session p2) (other (current (session p2))))
                       (cells p2) (statusText p2) in
      if computerToMove (session p3) then aiMovePage fuel p3
      else Ok (updateStatus None p3).

(** [init()] on the page [p] as it is when [init] is called, with the
    value of the mode selector and the checked mark: every button is
    cleared and enabled again. *)
Definition initPage (fuel : nat) (m : Mode) (checked : option Mark) (p : Page)
    : result Page :=
  let human := getSelectedMark checked in
  let s := mkSession (replicate 9 None) X false m human
                     (if mark_eqb human X then O else X) in
  let p0 := mkPage s ((fun _ => mkButton "" false false) <$> cells p) (statusText p) in
  if bool_decide (m = AI) && mark_eqb human O then aiMovePage fuel p0
  else Ok (updateStatus None p0).

Fixpoint clicksPage (fuel : nat) (idxs : list nat) (p : Page) : result Page :=
  match idxs with
  | [] => Ok p
  | idx :: rest => do p' <- onCellClickPage fuel idx p; clicksPage fuel rest p'
  end.

(** What the page should show of a session. *)
Definition cellText (c : Cell) : string :=
  match c with
  | Some m => markText m
  | None => ""
  end.

Definition onWinningLine (b : Board) (i : nat) : bool :=
  match evaluateBoard b with
  | Won _ (a, b2, c) => bool_decide (i = a \/ i = b2 \/ i = c)
  | _ => false
  end.

Definition statusOf (s : Session) : string :=
  match evaluateBoard (board s) with
  | Won w _ => markText w +:+ " wins!"
  | Draw => "It's a draw."
  | Ongoing =>
      match mode s with
      | PvP => "Turn: " +:+ markText (current s)
      | AI => "Your turn: " +:+ markText (current s)
      end
  end.

(** The buttons show the board of [s]: the text of a button is the mark
    of its cell, it is disabled exactly when its cell is taken or the
    game is over, and it is highlighted exactly when it lies on the
    reported winning line. *)
Definition cellsShow (s : Session) (cs : list Button) : Prop :=
  length cs = 9%nat /\
  forall i btn, cs !! i = Some btn ->
    textContent btn = cellText (cellAt (board s) i) /\
    disabled btn = truthy (cellAt (board s) i) || gameOver s /\
    winning btn = onWinningLine (board s) i.

(** The page shows its session, and the session is one of a game. *)
Definition pageShows (p : Page) : Prop :=
  length (board (session p)) = 9%nat /\
  (gameOver (session p) = true <-> evaluateBoard (board (session p)) <> Ongoing) /\
  (mode (session p) = AI ->
   aiMark (session p) = other (humanMark (session p)) /\
   (gameOver (session p) = false -> current (session p) = humanMark (session p))) /\
  cellsShow (session p) (cells p) /\
  statusText p = statusOf (session p).

(** ** Proof automation for the order of the scores *)

Ltac num_clean :=
  repeat match goal with
         | H : true = true -> _ |- _ => specialize (H eq_refl)
         | H : false = true -> _ |- _ => clear H
         | H : _ /\ _ |- _ => destruct H
         | H : false = true |- _ => discriminate H
         | H : true = false |- _ => discriminate H
         | H : Fin _ = Fin _ |- _ => injection H as H
         | H : Fin _ = NegInf |- _ => discriminate H
         | H : Fin _ = PosInf |- _ => discriminate H
         | H : NegInf = _ |- _ => discriminate H
         | H : PosInf = _ |- _ => discriminate H
         | H : ?x = ?x |- _ => clear H
         | H : context [(?a <? ?b)] |- _ => destruct (Z.ltb_spec a b); simpl in H
         | H : context [(?a <=? ?b)] |- _ => destruct (Z.leb_spec a b); simpl in H
         end.

Ltac num_goal :=
  simpl in *; cbv beta iota delta [num_leb num_ltb] in *; num_clean;
  lazymatch goal with
  | |- _ /\ _ => split; num_goal
  | |- _ -> _ => intros ?; num_goal
  | |- context [(?a <? ?b)] => destruct (Z.ltb_spec a b); num_goal
  | |- context [(?a <=? ?b)] => destruct (Z.leb_spec a b); num_goal
  | |- _ => first [reflexivity | lia | (f_equal; lia) | (exfalso; lia)]
  end.

(** Decides a statement on the order, [num_max] and [num_min] of scores
    by cases on the scores that occur. *)
Ltac num_order :=
  unfold withinWindow, num_le, num_lt, num_max, num_min in *;
  intros;
  repeat match goal with
         | x : num |- _ => destruct x; simpl in *; num_clean
         end;
  num_goal.

(** * Properties *)

(** ** The evaluator *)

Lemma lineWinner_spec (b : Board) (l : Line) (m : Mark) :
  lineWinner b l = Some m <-> lineComplete b l m.
Proof.
  destruct l as [[a b2] c]. unfold lineWinner, lineComplete, cell_eqb. simpl.
  destruct (cellAt b a) as [w|] eqn:Ea.
  - repeat case_bool_decide; simpl; split.
    + intros [= ->]. repeat split; congruence.
    + intros (? & ? & ?). congruence.
    + discriminate.
    + intros (? & ? & ?). congruence.
    + discriminate.
    + intros (? & ? & ?). congruence.
    + discriminate.
    + intros (? & ? & ?). congruence.
  - split; [discriminate | intros (? & _); discriminate].
Qed.

Lemma lineWinner_none (b : Board) (l : Line) :
  (forall m, ~ lineComplete b l m) -> lineWinner b l = None.
Proof.
  intros H. destruct (lineWinner b l) as [m|] eqn:E; [|done].
  apply lineWinner_spec in E. by destruct (H m).
Qed.

Lemma scanLines_none (b : Board) (ls : list Line) :
  (forall l m, l ∈ ls -> ~ lineComplete b l m) -> scanLines b ls = None.
Proof.
  induction ls as [|l ls IH]; intros H; simpl; [done|].
  rewrite lineWinner_none.
  - apply IH. intros l' m' Hin. apply H. by right.
  - intros m. apply H. by left.
Qed.

Lemma scanLines_first (b : Board) (pre post : list Line) (l : Line) (m : Mark) :
  lineComplete b l m ->
  (forall l' m', l' ∈ pre -> ~ lineComplete b l' m') ->
  scanLines b (pre ++ l :: post) = Some (Won m l).
Proof.
  intros Hl. induction pre as [|l0 pre IH]; intros Hpre; simpl.
  - apply lineWinner_spec in Hl. by rewrite Hl.
  - rewrite lineWinner_none.
    + apply IH. intros l' m' Hin. apply Hpre. by right.
    + intros m'. apply Hpre. by left.
Qed.

Lemma scanLines_Some (b : Board) (ls : list Line) (r : Outcome) :
  scanLines b ls = Some r ->
  exists pre post l m,
    ls = pre ++ l :: post /\ r = Won m l /\ lineComplete b l m /\
    forall l' m', l' ∈ pre -> ~ lineComplete b l' m'.
Proof.
  induction ls as [|l0 ls IH]; simpl; [discriminate|].
  destruct (lineWinner b l0) as [w|] eqn:E.
  - intros [= <-]. exists [], ls, l0, w. split_and!; try done.
    + by apply lineWinner_spec.
    + intros l' m' Hin. by apply elem_of_nil in Hin.
  - intros H. destruct (IH H) as (pre & post & l & m & -> & -> & Hl & Hpre).
    exists (l0 :: pre), post, l, m. split_and!; try done.
    intros l' m' Hin Hc. apply elem_of_cons in Hin as [->|Hin].
    + apply lineWinner_spec in Hc. congruence.
    + by apply (Hpre l' m').
Qed.

Lemma boardFull_spec (b : Board) :
  boardFull b = true <-> forall i, (i < length b)%nat -> cellAt b i <> None.
Proof.
  unfold boardFull, cellAt. rewrite forallb_forall. split.
  - intros H i Hi. destruct (lookup_lt_is_Some_2 b i Hi) as [c Hc].
    rewrite Hc. assert (Hin : In c b).
    { apply list_elem_of_In. by eapply list_elem_of_lookup_2. }
    apply H in Hin. by destruct c.
  - intros H c Hin. apply list_elem_of_In, list_elem_of_lookup_1 in Hin as [i Hi].
    specialize (H i (lookup_lt_Some _ _ _ Hi)). rewrite Hi in H. by destruct c.
Qed.

Lemma boardFull_false (b : Board) :
  boardFull b = false <-> exists i, b !! i = Some None.
Proof.
  split.
  - intros H. unfold boardFull in H.
    induction b as [|c b IH]; simpl in H; [discriminate|].
    destruct c as [m|]; simpl in H.
    + destruct (IH H) as [i Hi]. by exists (S i).
    + by exists 0%nat.
  - intros [i Hi]. destruct (boardFull b) eqn:E; [|done].
    rewrite boardFull_spec in E. specialize (E i (lookup_lt_Some _ _ _ Hi)).
    unfold cellAt in E. by rewrite Hi in E.
Qed.

(** C2 (evaluator correctness): on a 9-cell board, when a line of
    [WINS] holds three identical marks, [evaluateBoard] returns [Won]
    with the mark and the line of the first such line in the order of
    [WINS] (and that first line exists); with no complete line and no
    empty cell it returns [Draw]; with no complete line and an empty
    cell it returns [Ongoing]. *)
Theorem evaluateBoard_correct (b : Board) :
  length b = 9%nat ->
  (forall l m, firstComplete b l m -> evaluateBoard b = Won m l) /\
  ((exists l m, l ∈ WINS /\ lineComplete b l m) ->
   exists l m, firstComplete b l m /\ evaluateBoard b = Won m l) /\
  (noLine b -> (forall i, (i < 9)%nat -> cellAt b i <> None) ->
   evaluateBoard b = Draw) /\
  (noLine b -> (exists i, (i < 9)%nat /\ cellAt b i = None) ->
   evaluateBoard b = Ongoing).
Proof.
  intros Hlen. unfold evaluateBoard. split_and!.
  - intros l m (pre & post & -> & Hl & Hpre).
    by rewrite (scanLines_first b pre post l m Hl Hpre).
  - intros (l & m & Hin & Hl).
    destruct (scanLines b WINS) as [r|] eqn:E.
    + destruct (scanLines_Some _ _ _ E) as (pre & post & l1 & m1 & Hw & -> & Hl1 & Hpre).
      exists l1, m1. split; [|done]. by exists pre, post.
    + exfalso. assert (Hw : lineWinner b l = Some m) by by apply lineWinner_spec.
      clear Hl. revert E Hin. generalize WINS. intros ls.
      induction ls as [|l0 ls IH]; simpl; intros E Hin.
      * by apply elem_of_nil in Hin.
      * apply elem_of_cons in Hin as [<-|Hin]; [by rewrite Hw in E|].
        destruct (lineWinner b l0); [done|]. by apply IH.
  - intros Hno Hfull. rewrite (scanLines_none b WINS Hno).
    assert (boardFull b = true) as ->; [|done].
    apply boardFull_spec. intros i Hi. apply Hfull. lia.
  - intros Hno (i & Hi & Hc). rewrite (scanLines_none b WINS Hno).
    assert (boardFull b = false) as ->; [|done].
    apply boardFull_false. exists i. unfold cellAt in Hc.
    destruct (b !! i) as [c|] eqn:E; [by subst|].
    apply lookup_ge_None in E. lia.
Qed.

(** The board [X,X,X,_,_,_,_,_,_] is won by X on the first row. *)
Lemma evaluateBoard_correct_witness :
  evaluateBoard [Some X; Some X; Some X; None; None; None; None; None; None]
  = Won X (0, 1, 2)%nat.
Proof.
  refine (proj1 (evaluateBoard_correct _ _) (0, 1, 2)%nat X _); [reflexivity|].
  exists [], (tl WINS). split_and!; [reflexivity | by repeat split |].
  intros l' m' Hin. by apply elem_of_nil in Hin.
Defined.

(** ** Empty cells *)

Lemma elem_of_emptyCells (b : Board) (i : nat) :
  i ∈ emptyCells b <-> b !! i = Some None.
Proof.
  unfold emptyCells. rewrite list_elem_of_omap. split.
  - intros (x & Hx & Hid). apply elem_of_lookup_imap in Hx as (j & c & -> & Hj).
    destruct c; simpl in Hid; [discriminate|]. by injection Hid as <-.
  - intros Hi. exists (Some i). split; [|done].
    apply elem_of_lookup_imap. by exists i, None.
Qed.

Lemma emptyCells_nil (b : Board) : emptyCells b = [] -> boardFull b = true.
Proof.
  intros E. destruct (boardFull b) eqn:F; [done|].
  apply boardFull_false in F as [i Hi].
  apply elem_of_emptyCells in Hi. rewrite E in Hi. by apply elem_of_nil in Hi.
Qed.

Lemma evaluateBoard_Ongoing (b : Board) :
  evaluateBoard b = Ongoing -> emptyCells b <> [].
Proof.
  unfold evaluateBoard. intros H E. apply emptyCells_nil in E.
  destruct (scanLines b WINS) as [r|] eqn:S.
  - apply scanLines_Some in S as (? & ? & ? & ? & _ & -> & _). discriminate.
  - rewrite E in H. discriminate.
Qed.

Lemma countEmpty_filter_gen (f : nat -> nat) (b : Board) :
  length (omap id (imap (fun i (v : Cell) => if truthy v then None else Some (f i)) b))
  = length (List.filter (fun c => negb (truthy c)) b).
Proof.
  revert f. induction b as [|c b IH]; intros f; [done|].
  rewrite imap_cons. simpl. destruct c; simpl.
  - apply (IH (f ∘ S)).
  - f_equal. apply (IH (f ∘ S)).
Qed.

Lemma countEmpty_filter (b : Board) :
  countEmpty b = length (List.filter (fun c => negb (truthy c)) b).
Proof. apply (countEmpty_filter_gen (fun i => i)). Qed.

Lemma countEmpty_place (b : Board) (i : nat) (p : Mark) :
  b !! i = Some None ->
  S (countEmpty (<[i := Some p]> b)) = countEmpty b.
Proof.
  rewrite !countEmpty_filter. revert i.
  induction b as [|c b IH]; intros i Hi; [done|].
  destruct i as [|i]; simpl in *.
  - by injection Hi as ->.
  - destruct c; simpl; [by apply IH|]. f_equal. by apply IH.
Qed.

Lemma countEmpty_le_length (b : Board) : (countEmpty b <= length b)%nat.
Proof. rewrite countEmpty_filter. apply List.filter_length_le. Qed.

Lemma place_undo (b : Board) (i : nat) (p : Mark) :
  b !! i = Some None -> <[i := None]> (<[i := Some p]> b) = b.
Proof. intros Hi. rewrite list_insert_insert_eq. by apply list_insert_id. Qed.

(** ** Scores *)

Lemma isScore_gt_NegInf (s : num) : isScore s -> num_ltb NegInf s = true.
Proof. by intros [-> | [-> | ->]]. Qed.

Lemma isScore_lt_PosInf (s : num) : isScore s -> num_ltb s PosInf = true.
Proof. by intros [-> | [-> | ->]]. Qed.

(** ** The search: frame and shape of the result *)

Section SearchFacts.

Variable ai : Mark.

Lemma searchLoop_inv rec (p : Mark) :
  callSound rec ->
  forall (empty : list nat) (b : Board) alpha beta best r b',
    (forall i, i ∈ empty -> b !! i = Some None) ->
    searchLoop ai rec p empty b alpha beta best = Some (r, b') ->
    b' = b /\
    (r = best \/ (isScore (score r) /\ exists i, i ∈ empty /\ index r = Some i)).
Proof.
  intros Hrec. induction empty as [|idx rest IH];
    intros b alpha beta best r b' Hempty; simpl.
  - intros [= <- <-]. auto.
  - destruct (rec (<[idx:=Some p]> b) (other p) alpha beta) as [[next b2]|] eqn:Ecall;
      [|discriminate].
    destruct (Hrec _ _ _ _ _ _ Ecall) as [-> Hs].
    rewrite place_undo by (apply Hempty; left).
    assert (Hwith : isScore (score (mkBest (score next) (Some idx))) /\
                    exists i, i ∈ idx :: rest /\ index (mkBest (score next) (Some idx)) = Some i).
    { split; [done|]. exists idx. split; [left|done]. }
    assert (Hrest : forall i, i ∈ rest -> b !! i = Some None).
    { intros i Hi. apply Hempty. by right. }
    assert (Hlift : forall best0 : Best,
               best0 = best \/ best0 = mkBest (score next) (Some idx) ->
               forall r0 b0, 
               b0 = b /\ (r0 = best0 \/ (isScore (score r0) /\ exists i, i ∈ rest /\ index r0 = Some i)) ->
               b0 = b /\ (r0 = best \/ (isScore (score r0) /\ exists i, i ∈ idx :: rest /\ index r0 = Some i))).
    { intros best0 Hb r0 b0 [-> Hr]. split; [done|].
      destruct Hr as [-> | (? & i & ? & ?)].
      - destruct Hb as [-> | ->]; auto.
      - right. split; [done|]. exists i. split; [by right|done]. }
    simpl in *. destruct (mark_eqb p ai); simpl.
    + destruct (num_ltb (score best) (score next));
        destruct (num_leb beta (num_max alpha (score next)));
        intros H; try (injection H as <- <-; by auto);
        apply IH in H; try done; (eapply Hlift; [|exact H]; auto).
    + destruct (num_ltb (score next) (score best));
        destruct (num_leb (num_min beta (score next)) alpha);
        intros H; try (injection H as <- <-; by auto);
        apply IH in H; try done; (eapply Hlift; [|exact H]; auto).
Qed.

Lemma minimax_inv (fuel : nat) :
  forall b p alpha beta r b',
    minimax ai fuel b p alpha beta = Some (r, b') ->
    b' = b /\ isScore (score r) /\
    (evaluateBoard b = Ongoing -> exists i, index r = Some i /\ b !! i = Some None).
Proof.
  induction fuel as [|fuel IH]; intros b p alpha beta r b'; simpl; [discriminate|].
  destruct (evaluateBoard b) as [w l| |] eqn:Eev.
  - destruct (mark_eqb w ai); intros [= <- <-];
      (split_and!; [done | unfold isScore; simpl; auto | discriminate]).
  - intros [= <- <-]. split_and!; [done | unfold isScore; simpl; auto | discriminate].
  - assert (Hrec : callSound (minimax ai fuel)).
    { intros b0 p0 a0 be0 r0 b0' H0. apply IH in H0. tauto. }
    pose proof (evaluateBoard_Ongoing b Eev) as Hne.
    assert (Hempty : forall i, i ∈ emptyCells b -> b !! i = Some None).
    { intros i. apply elem_of_emptyCells. }
    destruct (emptyCells b) as [|idx rest] eqn:Eempty; [done|]. clear Hne.
    cbn [searchLoop].
    destruct (minimax ai fuel (<[idx:=Some p]> b) (other p) alpha beta)
      as [[next b2]|] eqn:Ecall; [|discriminate].
    destruct (Hrec _ _ _ _ _ _ Ecall) as [-> Hs].
    rewrite place_undo by (apply Hempty; left).
    assert (Hrest : forall i, i ∈ rest -> b !! i = Some None).
    { intros i Hi. apply Hempty. by right. }
    assert (Hfin : forall r0 b0,
               b0 = b /\ (r0 = mkBest (score next) (Some idx) \/
                          (isScore (score r0) /\ exists i, i ∈ rest /\ index r0 = Some i)) ->
               b0 = b /\ isScore (score r0) /\
               (Ongoing = Ongoing -> exists i, index r0 = Some i /\ b !! i = Some None)).
    { intros r0 b0 [-> Hr]. split; [done|].
      destruct Hr as [-> | (? & i & Hi & ?)].
      - split; [done|]. intros _. exists idx. split; [done|]. apply Hempty. left.
      - split; [done|]. intros _. exists i. auto. }
    destruct (mark_eqb p ai); cbn [score index head].
    + rewrite (isScore_gt_NegInf _ Hs).
      destruct (num_leb beta (num_max alpha (score next))); intros H.
      * injection H as <- <-. apply Hfin. auto.
      * apply Hfin. eapply searchLoop_inv; eauto.
    + rewrite (isScore_lt_PosInf _ Hs).
      destruct (num_leb (num_min beta (score next)) alpha); intros H.
      * injection H as <- <-. apply Hfin. auto.
      * apply Hfin. eapply searchLoop_inv; eauto.
Qed.

End SearchFacts.

(** ** The search: termination and fuel *)

Section SearchTotal.

Variable ai : Mark.

Lemma searchLoop_total rec (p : Mark) (b : Board) :
  (forall idx p' alpha beta,
      b !! idx = Some None ->
      exists r, rec (<[idx:=Some p]> b) p' alpha beta = Some (r, <[idx:=Some p]> b)) ->
  forall (empty : list nat) alpha beta best,
    (forall i, i ∈ empty -> b !! i = Some None) ->
    exists r, searchLoop ai rec p empty b alpha beta best = Some (r, b).
Proof.
  intros Hrec. induction empty as [|idx rest IH]; intros alpha beta best Hempty.
  - by exists best.
  - assert (Hidx : b !! idx = Some None) by (apply Hempty; left).
    assert (Hrest : forall i, i ∈ rest -> b !! i = Some None).
    { intros i Hi. apply Hempty. by right. }
    cbn [searchLoop].
    destruct (Hrec idx (other p) alpha beta Hidx) as [next ->].
    rewrite place_undo by done.
    destruct (mark_eqb p ai).
    + destruct (num_leb beta (num_max alpha (score (mkBest (score next) (Some idx)))));
        [eauto | by apply IH].
    + destruct (num_leb (num_min beta (score (mkBest (score next) (Some idx)))) alpha);
        [eauto | by apply IH].
Qed.

Lemma minimax_total (fuel : nat) :
  forall b p alpha beta,
    (countEmpty b < fuel)%nat ->
    exists r, minimax ai fuel b p alpha beta = Some (r, b).
Proof.
  induction fuel as [|fuel IH]; intros b p alpha beta Hfuel; [lia|].
  cbn [minimax]. destruct (evaluateBoard b) as [w l| |].
  - destruct (mark_eqb w ai); eauto.
  - eauto.
  - apply searchLoop_total.
    + intros idx p' alpha' beta' Hidx. apply IH.
      pose proof (countEmpty_place b idx p Hidx). lia.
    + intros i. apply elem_of_emptyCells.
Qed.

Lemma searchLoop_mono rec1 rec2 (p : Mark) :
  (forall b p' alpha beta x, rec1 b p' alpha beta = Some x -> rec2 b p' alpha beta = Some x) ->
  forall (empty : list nat) b alpha beta best x,
    searchLoop ai rec1 p empty b alpha beta best = Some x ->
    searchLoop ai rec2 p empty b alpha beta best = Some x.
Proof.
  intros Hrec. induction empty as [|idx rest IH]; intros b alpha beta best x; [done|].
  cbn [searchLoop].
  destruct (rec1 (<[idx:=Some p]> b) (other p) alpha beta) as [[next b2]|] eqn:E1;
    [|discriminate].
  rewrite (Hrec _ _ _ _ _ E1).
  destruct (mark_eqb p ai).
  - destruct (num_leb beta (num_max alpha (score (mkBest (score next) (Some idx)))));
      [done | apply IH].
  - destruct (num_leb (num_min beta (score (mkBest (score next) (Some idx)))) alpha);
      [done | apply IH].
Qed.

Lemma minimax_fuel_mono (fuel : nat) :
  forall fuel' b p alpha beta x,
    (fuel <= fuel')%nat ->
    minimax ai fuel b p alpha beta = Some x ->
    minimax ai fuel' b p alpha beta = Some x.
Proof.
  induction fuel as [|fuel IH]; intros fuel' b p alpha beta x Hle; [discriminate|].
  destruct fuel' as [|fuel']; [lia|]. cbn [minimax].
  destruct (evaluateBoard b); try done.
  apply searchLoop_mono. intros b0 p0 a0 be0 x0. apply IH. lia.
Qed.

End SearchTotal.

(** ** The order of the scores *)

Lemma withinWindow_refl (alpha beta v : num) : withinWindow alpha beta v v.
Proof. num_order. Qed.

Lemma withinWindow_root (v r : num) :
  isScore r -> withinWindow NegInf PosInf v r -> v = r.
Proof. intros [-> | [-> | ->]] (_ & _ & H); by apply H. Qed.

Lemma num_max_NegInf (alpha : num) : num_max alpha NegInf = alpha.
Proof. by destruct alpha. Qed.

Lemma num_min_PosInf (beta : num) : num_min beta PosInf = beta.
Proof. by destruct beta. Qed.

Lemma num_le_refl (x : num) : num_le x x.
Proof. num_order. Qed.

Lemma num_max_le (x y z : num) : num_le (num_max x y) z -> num_le x z.
Proof. num_order. Qed.

Lemma num_min_le (x y z : num) : num_le z (num_min x y) -> num_le z x.
Proof. num_order. Qed.

(** One turn of the loop at a maximising node that goes on. *)
Lemma max_step_on (alpha beta bs pv rc vc : num) :
  num_lt (num_max alpha bs) beta ->
  num_le pv bs -> (num_lt alpha bs -> pv = bs) ->
  withinWindow (num_max alpha bs) beta vc rc ->
  num_leb beta (num_max (num_max alpha bs) rc) = false ->
  num_max (num_max alpha bs) rc = num_max alpha (num_max bs rc) /\
  num_lt (num_max alpha (num_max bs rc)) beta /\
  num_le (num_max pv vc) (num_max bs rc) /\
  (num_lt alpha (num_max bs rc) -> num_max pv vc = num_max bs rc).
Proof. num_order. Qed.

(** One turn of the loop at a maximising node that ends in the cutoff. *)
Lemma max_step_cut (alpha beta bs pv rc vc v : num) :
  num_lt (num_max alpha bs) beta ->
  num_le pv bs -> (num_lt alpha bs -> pv = bs) ->
  withinWindow (num_max alpha bs) beta vc rc ->
  num_leb beta (num_max (num_max alpha bs) rc) = true ->
  num_le (num_max pv vc) v ->
  withinWindow alpha beta v (num_max bs rc).
Proof. num_order. Qed.

(** The end of the loop at a maximising node. *)
Lemma max_loop_end (alpha beta bs pv : num) :
  num_lt (num_max alpha bs) beta ->
  num_le pv bs -> (num_lt alpha bs -> pv = bs) ->
  withinWindow alpha beta pv bs.
Proof. num_order. Qed.

(** The same three facts at a minimising node. *)
Lemma min_step_on (alpha beta bs pv rc vc : num) :
  num_lt alpha (num_min beta bs) ->
  num_le bs pv -> (num_lt bs beta -> pv = bs) ->
  withinWindow alpha (num_min beta bs) vc rc ->
  num_leb (num_min (num_min beta bs) rc) alpha = false ->
  num_min (num_min beta bs) rc = num_min beta (num_min bs rc) /\
  num_lt alpha (num_min beta (num_min bs rc)) /\
  num_le (num_min bs rc) (num_min pv vc) /\
  (num_lt (num_min bs rc) beta -> num_min pv vc = num_min bs rc).
Proof. num_order. Qed.

Lemma min_step_cut (alpha beta bs pv rc vc v : num) :
  num_lt alpha (num_min beta bs) ->
  num_le bs pv -> (num_lt bs beta -> pv = bs) ->
  withinWindow alpha (num_min beta bs) vc rc ->
  num_leb (num_min (num_min beta bs) rc) alpha = true ->
  num_le v (num_min pv vc) ->
  withinWindow alpha beta v (num_min bs rc).
Proof. num_order. Qed.

Lemma min_loop_end (alpha beta bs pv : num) :
  num_lt alpha (num_min beta bs) ->
  num_le bs pv -> (num_lt bs beta -> pv = bs) ->
  withinWindow alpha beta pv bs.
Proof. num_order. Qed.

(** ** The search: the cutoff does not change the value *)

Section Pruning.

Variable ai : Mark.

(** The reference loop finishes once its calls do, and its running
    best only grows at a maximising node and only falls at a
    minimising one. *)
Lemma plainLoop_total prec (p : Mark) (b : Board) :
  (forall idx, b !! idx = Some None ->
               exists v, prec (<[idx:=Some p]> b) (other p) = Some v) ->
  forall (empty : list nat) pv,
    (forall i, i ∈ empty -> b !! i = Some None) ->
    exists v, plainLoop ai prec p empty b pv = Some v /\
              if mark_eqb p ai then num_le pv v else num_le v pv.
Proof.
  intros Hrec. induction empty as [|idx rest IH]; intros pv Hempty.
  - exists pv. split; [done|]. destruct (mark_eqb p ai); apply num_le_refl.
  - cbn [plainLoop].
    destruct (Hrec idx) as [vc ->]; [apply Hempty; left|].
    destruct (IH (if mark_eqb p ai then num_max pv vc else num_min pv vc))
      as (v & -> & Hv).
    { intros i Hi. apply Hempty. by right. }
    exists v. split; [done|]. destruct (mark_eqb p ai).
    + by apply num_max_le in Hv.
    + by apply num_min_le in Hv.
Qed.

Lemma childrenAgree_total rec prec p b :
  childrenAgree rec prec p b ->
  forall idx, b !! idx = Some None ->
              exists v, prec (<[idx:=Some p]> b) (other p) = Some v.
Proof.
  intros H idx Hidx.
  destruct (H idx NegInf PosInf Hidx eq_refl) as (next & v & _ & Hv & _). eauto.
Qed.

Lemma score_pick_max (best : Best) (s : num) (i : option nat) :
  score (if num_ltb (score best) s then mkBest s i else best)
  = num_max (score best) s.
Proof. unfold num_max. by destruct (num_ltb (score best) s). Qed.

Lemma score_pick_min (best : Best) (s : num) (i : option nat) :
  score (if num_ltb s (score best) then mkBest s i else best)
  = num_min (score best) s.
Proof. unfold num_min. by destruct (num_ltb s (score best)). Qed.

Lemma searchLoop_max_sound rec prec (p : Mark) (b : Board) (alpha beta : num) :
  mark_eqb p ai = true ->
  childrenAgree rec prec p b ->
  forall (empty : list nat) best a pv,
    (forall i, i ∈ empty -> b !! i = Some None) ->
    a = num_max alpha (score best) ->
    num_lt a beta ->
    num_le pv (score best) ->
    (num_lt alpha (score best) -> pv = score best) ->
    exists r v,
      searchLoop ai rec p empty b a beta best = Some (r, b) /\
      plainLoop ai prec p empty b pv = Some v /\
      withinWindow alpha beta v (score r).
Proof.
  intros Hp Hrec. induction empty as [|idx rest IH];
    intros best a pv Hempty -> Hlt Hle Heq.
  - exists best, pv. split_and!; [done..|]. by apply max_loop_end.
  - assert (Hidx : b !! idx = Some None) by (apply Hempty; left).
    assert (Hrest : forall i, i ∈ rest -> b !! i = Some None).
    { intros i Hi. apply Hempty. by right. }
    cbn [searchLoop plainLoop].
    destruct (Hrec idx _ beta Hidx Hlt) as (next & vc & -> & -> & Hw).
    rewrite place_undo by done. rewrite Hp. cbn [score].
    destruct (num_leb beta (num_max (num_max alpha (score best)) (score next))) eqn:Ecut.
    + destruct (plainLoop_total prec p b (childrenAgree_total _ _ _ _ Hrec)
                  rest (num_max pv vc) Hrest) as (v & Hv & Hge).
      rewrite Hp in Hge.
      eexists _, v. split_and!; [done..|].
      rewrite score_pick_max. by eapply max_step_cut.
    + destruct (max_step_on _ _ _ _ _ _ Hlt Hle Heq Hw Ecut) as (Ha & Hlt' & Hle' & Heq').
      apply IH; rewrite ?score_pick_max, ?Ha; done.
Qed.

Lemma searchLoop_min_sound rec prec (p : Mark) (b : Board) (alpha beta : num) :
  mark_eqb p ai = false ->
  childrenAgree rec prec p b ->
  forall (empty : list nat) best be pv,
    (forall i, i ∈ empty -> b !! i = Some None) ->
    be = num_min beta (score best) ->
    num_lt alpha be ->
    num_le (score best) pv ->
    (num_lt (score best) beta -> pv = score best) ->
    exists r v,
      searchLoop ai rec p empty b alpha be best = Some (r, b) /\
      plainLoop ai prec p empty b pv = Some v /\
      withinWindow alpha beta v (score r).
Proof.
  intros Hp Hrec. induction empty as [|idx rest IH];
    intros best be pv Hempty -> Hlt Hle Heq.
  - exists best, pv. split_and!; [done..|]. by apply min_loop_end.
  - assert (Hidx : b !! idx = Some None) by (apply Hempty; left).
    assert (Hrest : forall i, i ∈ rest -> b !! i = Some None).
    { intros i Hi. apply Hempty. by right. }
    cbn [searchLoop plainLoop].
    destruct (Hrec idx alpha _ Hidx Hlt) as (next & vc & -> & -> & Hw).
    rewrite place_undo by done. rewrite Hp. cbn [score].
    destruct (num_leb (num_min (num_min beta (score best)) (score next)) alpha) eqn:Ecut.
    + destruct (plainLoop_total prec p b (childrenAgree_total _ _ _ _ Hrec)
                  rest (num_min pv vc) Hrest) as (v & Hv & Hge).
      rewrite Hp in Hge.
      eexists _, v. split_and!; [done..|].
      rewrite score_pick_min. by eapply min_step_cut.
    + destruct (min_step_on _ _ _ _ _ _ Hlt Hle Heq Hw Ecut) as (Ha & Hlt' & Hle' & Heq').
      apply IH; rewrite ?score_pick_min, ?Ha; done.
Qed.

(** The source without its cutoff line computes the reference value. *)
Lemma searchLoopNoCut_plain rec prec (p : Mark) (b : Board) :
  (forall idx alpha beta,
      b !! idx = Some None ->
      exists next,
        rec (<[idx:=Some p]> b) (other p) alpha beta = Some (next, <[idx:=Some p]> b) /\
        prec (<[idx:=Some p]> b) (other p) = Some (score next)) ->
  forall (empty : list nat) alpha beta best,
    (forall i, i ∈ empty -> b !! i = Some None) ->
    exists r,
      searchLoopNoCut ai rec p empty b alpha beta best = Some (r, b) /\
      plainLoop ai prec p empty b (score best) = Some (score r).
Proof.
  intros Hrec. induction empty as [|idx rest IH]; intros alpha beta best Hempty.
  - by exists best.
  - assert (Hidx : b !! idx = Some None) by (apply Hempty; left).
    assert (Hrest : forall i, i ∈ rest -> b !! i = Some None).
    { intros i Hi. apply Hempty. by right. }
    cbn [searchLoopNoCut plainLoop].
    destruct (Hrec idx alpha beta Hidx) as (next & -> & ->).
    rewrite place_undo by done. cbn [score].
    destruct (mark_eqb p ai).
    + rewrite <- (score_pick_max best (score next) (Some idx)). by apply IH.
    + rewrite <- (score_pick_min best (score next) (Some idx)). by apply IH.
Qed.

Lemma minimax_nocut_plain (fuel : nat) :
  forall b p alpha beta,
    (countEmpty b < fuel)%nat ->
    exists r,
      minimax_nocut ai fuel b p alpha beta = Some (r, b) /\
      minimax_plain ai fuel b p = Some (score r).
Proof.
  induction fuel as [|fuel IH]; intros b p alpha beta Hfuel; [lia|].
  cbn [minimax_nocut minimax_plain]. destruct (evaluateBoard b) as [w l| |].
  - destruct (mark_eqb w ai); eauto.
  - eauto.
  - change (if mark_eqb p ai then NegInf else PosInf)
      with (score (mkBest (if mark_eqb p ai then NegInf else PosInf)
                          (head (emptyCells b)))) at 2.
    apply searchLoopNoCut_plain.
    + intros idx a be Hidx. apply IH.
      pose proof (countEmpty_place b idx p Hidx). lia.
    + intros i. apply elem_of_emptyCells.
Qed.

(** With enough fuel and a window that is not empty, the pruned
    search and the reference search both finish, the board is as
    before, and the pruned score stands to the reference value as the
    window says. *)
Lemma minimax_window (fuel : nat) :
  forall b p alpha beta,
    (countEmpty b < fuel)%nat ->
    num_lt alpha beta ->
    exists r v,
      minimax ai fuel b p alpha beta = Some (r, b) /\
      minimax_plain ai fuel b p = Some v /\
      withinWindow alpha beta v (score r).
Proof.
  induction fuel as [|fuel IH]; intros b p alpha beta Hfuel Hlt; [lia|].
  cbn [minimax minimax_plain]. destruct (evaluateBoard b) as [w l| |].
  - destruct (mark_eqb w ai); eexists _, _; (split_and!; [done..|]);
      apply withinWindow_refl.
  - eexists _, _; (split_and!; [done..|]). apply withinWindow_refl.
  - assert (Hrec : childrenAgree (minimax ai fuel) (minimax_plain ai fuel) p b).
    { intros idx a be Hidx Hwin. apply IH; [|done].
      pose proof (countEmpty_place b idx p Hidx). lia. }
    assert (Hempty : forall i, i ∈ emptyCells b -> b !! i = Some None).
    { intros i. apply elem_of_emptyCells. }
    destruct (mark_eqb p ai) eqn:Hp.
    + apply (searchLoop_max_sound _ _ p b alpha beta Hp Hrec); cbn [score];
        [done | by rewrite num_max_NegInf | done | done | by destruct alpha].
    + apply (searchLoop_min_sound _ _ p b alpha beta Hp Hrec); cbn [score];
        [done | by rewrite num_min_PosInf | done | done | by destruct beta].
Qed.

End Pruning.

(** ** The move selector *)

Lemma countMarks_countEmpty (b : Board) :
  (countMarks b + countEmpty b = length b)%nat.
Proof.
  rewrite countEmpty_filter. unfold countMarks.
  induction b as [|c b IH]; [done|]. destruct c; simpl; lia.
Qed.

Lemma find_first {A} (f : A -> bool) (l : list A) (x : A) :
  List.find f l = Some x ->
  exists pre post, l = pre ++ x :: post /\ f x = true /\
                   forall y, y ∈ pre -> f y = false.
Proof.
  induction l as [|a l IH]; simpl; [discriminate|].
  destruct (f a) eqn:Ea.
  - intros [= <-]. exists [], l. split_and!; [done..|].
    intros y Hy. by apply elem_of_nil in Hy.
  - intros H. destruct (IH H) as (pre & post & -> & Hx & Hpre).
    exists (a :: pre), post. split_and!; [done..|].
    intros y Hy. apply elem_of_cons in Hy as [->|Hy]; auto.
Qed.

Lemma openingOrder_all (i : nat) : (i < 9)%nat -> In i openingOrder.
Proof.
  intros Hi. unfold openingOrder.
  do 9 (destruct i as [|i]; [simpl; tauto|]). lia.
Qed.

Lemma openingOrder_lt (i : nat) : i ∈ openingOrder -> (i < 9)%nat.
Proof.
  unfold openingOrder. rewrite !elem_of_cons, elem_of_nil. lia.
Qed.

Lemma cellAt_None (b : Board) (i : nat) :
  (i < length b)%nat -> cellAt b i = None -> b !! i = Some None.
Proof.
  intros Hi. unfold cellAt. destruct (lookup_lt_is_Some_2 b i Hi) as [c ->].
  by intros ->.
Qed.

(** On a 9-cell board with an empty cell the opening finds a cell. *)
Lemma opening_found (b : Board) :
  length b = 9%nat -> (exists i, b !! i = Some None) ->
  exists i, List.find (fun i => negb (truthy (cellAt b i))) openingOrder = Some i.
Proof.
  intros Hlen [i Hi].
  destruct (List.find _ openingOrder) as [j|] eqn:E; [eauto|].
  pose proof (List.find_none _ _ E i) as H. simpl in H.
  unfold cellAt in H. rewrite Hi in H. simpl in H.
  assert (Hlt : (i < 9)%nat) by (rewrite <- Hlen; by eapply lookup_lt_Some).
  specialize (H (openingOrder_all i Hlt)). discriminate.
Qed.

Lemma emptyCells_exists (b : Board) :
  (0 < countEmpty b)%nat -> exists i, b !! i = Some None.
Proof.
  unfold countEmpty. destruct (emptyCells b) as [|i l] eqn:E; simpl; [lia|].
  intros _. exists i. apply elem_of_emptyCells. rewrite E. left.
Qed.

(** ** The claims on the search and the move selector *)

(** The concrete scenarios of the specification, run on the model. *)
Example scenario_row_won :
  evaluateBoard [Some X; Some X; Some X; None; None; None; None; None; None]
  = Won X (0, 1, 2)%nat.
Proof. reflexivity. Qed.

Example scenario_full_draw :
  evaluateBoard [Some X; Some O; Some X; Some O; Some X; Some O; Some O; Some X; Some O]
  = Draw.
Proof. reflexivity. Qed.

Example scenario_empty_board_center :
  selectMove X 10 emptyBoard = Some (Some 4%nat, emptyBoard).
Proof. reflexivity. Qed.

Example scenario_block_cells :
  emptyCells [Some X; Some O; None; Some O; Some X; None; None; None; None]
  = [2; 5; 6; 7; 8]%nat.
Proof. reflexivity. Qed.

Example scenario_last_cell :
  selectMove X 10 [Some X; Some O; Some X; Some O; Some X; Some O; Some O; Some X; None]
  = Some (Some 8%nat,
          [Some X; Some O; Some X; Some O; Some X; Some O; Some O; Some X; None]).
Proof. by vm_compute. Qed.

(** C3 (pruning soundness): on a board that is not won and has an empty
    cell, [minimax] called with alpha = -Infinity and beta = +Infinity
    finishes (given fuel above the number of empty cells) with the same
    score as the search without the cutoff: the source with its [break]
    line left out, and the plain minimax value of the board. *)
Theorem minimax_pruning_sound (ai : Mark) (fuel : nat) (b : Board) (p : Mark) :
  (forall w l, evaluateBoard b <> Won w l) ->
  (exists i, b !! i = Some None) ->
  (countEmpty b < fuel)%nat ->
  exists r r',
    minimax ai fuel b p NegInf PosInf = Some (r, b) /\
    minimax_nocut ai fuel b p NegInf PosInf = Some (r', b) /\
    score r = score r' /\
    minimax_plain ai fuel b p = Some (score r).
Proof.
  intros _ _ Hfuel.
  destruct (minimax_window ai fuel b p NegInf PosInf Hfuel eq_refl)
    as (r & v & Hr & Hv & Hw).
  destruct (minimax_nocut_plain ai fuel b p NegInf PosInf Hfuel) as (r' & Hr' & Hv').
  assert (Hrv : v = score r).
  { apply withinWindow_root; [|done].
    by destruct (minimax_inv ai fuel _ _ _ _ _ _ Hr) as (_ & Hs & _). }
  exists r, r'. split_and!; [done..| |]; congruence.
Qed.

Lemma minimax_pruning_sound_witness :
  exists r r',
    minimax O 10 [Some X; Some O; None; Some O; Some X; None; None; None; None]
            O NegInf PosInf
    = Some (r, [Some X; Some O; None; Some O; Some X; None; None; None; None]) /\
    minimax_nocut O 10 [Some X; Some O; None; Some O; Some X; None; None; None; None]
            O NegInf PosInf
    = Some (r', [Some X; Some O; None; Some O; Some X; None; None; None; None]) /\
    score r = score r' /\
    minimax_plain O 10 [Some X; Some O; None; Some O; Some X; None; None; None; None] O
    = Some (score r).
Proof.
  apply minimax_pruning_sound.
  - intros w l. vm_compute. discriminate.
  - exists 2%nat. reflexivity.
  - vm_compute. lia.
Defined.

(** C5 (terminal scoring): on a board won by the computer's mark
    [minimax] returns score +10, on a board won by the other mark -10,
    on a drawn board 0, whatever the player to move, alpha and beta. *)
Theorem minimax_terminal_score (ai : Mark) (fuel : nat) (b : Board) (p : Mark)
    (alpha beta : num) :
  (forall l, evaluateBoard b = Won ai l ->
             minimax ai (S fuel) b p alpha beta = Some (mkBest (Fin 10) None, b)) /\
  (forall l, evaluateBoard b = Won (other ai) l ->
             minimax ai (S fuel) b p alpha beta = Some (mkBest (Fin (-10)) None, b)) /\
  (evaluateBoard b = Draw ->
   minimax ai (S fuel) b p alpha beta = Some (mkBest (Fin 0) None, b)).
Proof.
  cbn [minimax]. split_and!.
  - intros l ->. unfold mark_eqb. by rewrite bool_decide_eq_true_2.
  - intros l ->. unfold mark_eqb. rewrite bool_decide_eq_false_2; [done|].
    by destruct ai.
  - by intros ->.
Qed.

Lemma minimax_terminal_score_witness :
  minimax O 1 [Some X; Some X; Some X; Some O; Some O; None; None; None; None]
          O (Fin 3) NegInf
  = Some (mkBest (Fin (-10)) None,
          [Some X; Some X; Some X; Some O; Some O; None; None; None; None]).
Proof.
  refine (proj1 (proj2 (minimax_terminal_score O 0 _ O (Fin 3) NegInf)) (0, 1, 2)%nat _).
  reflexivity.
Defined.

(** C6 (the search leaves the board unchanged): whenever [minimax]
    returns, the board is cell for cell the one it was called with, for
    every board, player, alpha and beta; and it does return, with that
    board, once the fuel exceeds the number of empty cells. *)
Theorem minimax_board_unchanged (ai : Mark) (fuel : nat) (b : Board) (p : Mark)
    (alpha beta : num) :
  (forall r b', minimax ai fuel b p alpha beta = Some (r, b') ->
                b' = b /\ forall i, b' !! i = b !! i) /\
  ((countEmpty b < fuel)%nat ->
   exists r, minimax ai fuel b p alpha beta = Some (r, b)).
Proof.
  split.
  - intros r b' H. apply minimax_inv in H as (-> & _). done.
  - apply minimax_total.
Qed.

Lemma minimax_board_unchanged_witness :
  exists r,
    minimax X 10 [Some X; Some O; None; Some O; Some X; None; None; None; None]
            O (Fin 0) (Fin 0)
    = Some (r, [Some X; Some O; None; Some O; Some X; None; None; None; None]).
Proof.
  apply (proj2 (minimax_board_unchanged X 10 _ O (Fin 0) (Fin 0))).
  vm_compute. lia.
Defined.

(** C9 (termination): on a 9-cell board there are at most 9 empty
    cells, every recursive call (the board with the mark placed on one of
    its empty cells) has strictly fewer empty cells, and [minimax]
    returns as soon as the fuel, one unit per nested call, exceeds the
    number of empty cells; 10 units are enough for every 9-cell board. *)
Theorem minimax_terminates (ai : Mark) (b : Board) (p : Mark) (alpha beta : num) :
  length b = 9%nat ->
  (countEmpty b <= 9)%nat /\
  (forall idx, idx ∈ emptyCells b ->
               (countEmpty (<[idx := Some p]> b) < countEmpty b)%nat) /\
  (forall fuel, (countEmpty b < fuel)%nat ->
                exists r, minimax ai fuel b p alpha beta = Some (r, b)) /\
  (exists r, minimax ai 10 b p alpha beta = Some (r, b)).
Proof.
  intros Hlen. pose proof (countEmpty_le_length b) as Hle. split_and!.
  - lia.
  - intros idx Hidx. apply elem_of_emptyCells in Hidx.
    pose proof (countEmpty_place b idx p Hidx). lia.
  - intros fuel. apply minimax_total.
  - apply minimax_total. lia.
Qed.

Lemma minimax_terminates_witness :
  exists r, minimax X 10 (replicate 9 None) X NegInf PosInf = Some (r, replicate 9 None).
Proof.
  apply (minimax_terminates X (replicate 9 None) X NegInf PosInf). reflexivity.
Defined.

(** C10 (the Infinity sentinel never escapes): on a board that is
    neither won nor drawn and has an empty cell, [minimax] returns a
    score that is -10, 0 or +10, for every player, alpha and beta. *)
Theorem minimax_score_finite (ai : Mark) (fuel : nat) (b : Board) (p : Mark)
    (alpha beta : num) :
  evaluateBoard b = Ongoing ->
  (exists i, b !! i = Some None) ->
  (countEmpty b < fuel)%nat ->
  exists r,
    minimax ai fuel b p alpha beta = Some (r, b) /\
    (score r = Fin (-10) \/ score r = Fin 0 \/ score r = Fin 10) /\
    score r <> NegInf /\ score r <> PosInf.
Proof.
  intros _ _ Hfuel.
  destruct (minimax_total ai fuel b p alpha beta Hfuel) as [r Hr].
  exists r. split; [done|].
  destruct (minimax_inv ai fuel _ _ _ _ _ _ Hr) as (_ & Hs & _).
  split; [done|]. by destruct Hs as [-> | [-> | ->]].
Qed.

Lemma minimax_score_finite_witness :
  exists r,
    minimax O 10 [Some X; Some O; None; Some O; Some X; None; None; None; None]
            X PosInf NegInf
    = Some (r, [Some X; Some O; None; Some O; Some X; None; None; None; None]) /\
    (score r = Fin (-10) \/ score r = Fin 0 \/ score r = Fin 10) /\
    score r <> NegInf /\ score r <> PosInf.
Proof.
  apply minimax_score_finite.
  - reflexivity.
  - exists 2%nat. reflexivity.
  - vm_compute. lia.
Defined.

(** C4 (opening shortcut): on a 9-cell board with at most one mark the
    move selector returns, without calling the search (so for any fuel,
    also none), the first index of [4,0,2,6,8,1,3,5,7] whose cell is
    empty; on the empty board this is index 4, for either mark of the
    computer. *)
Theorem selectMove_opening (ai : Mark) (fuel : nat) (b : Board) :
  length b = 9%nat ->
  (countMarks b <= 1)%nat ->
  (exists i pre post,
      selectMove ai fuel b = Some (Some i, b) /\
      openingOrder = pre ++ i :: post /\
      b !! i = Some None /\
      forall j, j ∈ pre -> cellAt b j <> None) /\
  selectMove ai fuel emptyBoard = Some (Some 4%nat, emptyBoard).
Proof.
  intros Hlen Hmarks. split; [|done].
  unfold selectMove. rewrite (proj2 (Nat.leb_le _ _) Hmarks).
  destruct (opening_found b Hlen) as [i Hi].
  { apply emptyCells_exists. pose proof (countMarks_countEmpty b). lia. }
  rewrite Hi. apply find_first in Hi as (pre & post & Hord & Hempty & Hpre).
  exists i, pre, post. split_and!; [done..| |].
  - apply cellAt_None.
    + rewrite Hlen. apply openingOrder_lt. rewrite Hord.
      apply elem_of_app. right. left.
    + by destruct (cellAt b i).
  - intros j Hj Hc. apply Hpre in Hj. by rewrite Hc in Hj.
Qed.

Lemma selectMove_opening_witness :
  exists i pre post,
    selectMove O 0 [None; None; None; None; Some X; None; None; None; None]
    = Some (Some i, [None; None; None; None; Some X; None; None; None; None]) /\
    openingOrder = pre ++ i :: post /\
    [None; None; None; None; Some X; None; None; None; None] !! i = Some None /\
    forall j, j ∈ pre ->
              cellAt [None; None; None; None; Some X; None; None; None; None] j <> None.
Proof.
  apply (selectMove_opening O 0 [None; None; None; None; Some X; None; None; None; None]).
  - reflexivity.
  - vm_compute. lia.
Defined.

(** C7 (move legality): on a 9-cell board that is neither won nor drawn
    and has an empty cell, the index the move selector returns (opening
    or search) is the index of an empty cell of that board. *)
Theorem selectMove_legal (ai : Mark) (fuel : nat) (b : Board) :
  length b = 9%nat ->
  evaluateBoard b = Ongoing ->
  (exists i, b !! i = Some None) ->
  (countEmpty b < fuel)%nat ->
  exists i, selectMove ai fuel b = Some (Some i, b) /\ b !! i = Some None.
Proof.
  intros Hlen Hev Hex Hfuel. unfold selectMove.
  destruct (countMarks b <=? 1)%nat.
  - destruct (opening_found b Hlen Hex) as [i Hi]. rewrite Hi.
    exists i. split; [done|].
    pose proof (List.find_some _ _ Hi) as [Hin Hempty].
    apply cellAt_None.
    + rewrite Hlen. by apply openingOrder_lt, list_elem_of_In.
    + by destruct (cellAt b i).
  - destruct (minimax_total ai fuel b ai NegInf PosInf Hfuel) as [r Hr].
    rewrite Hr.
    destruct (minimax_inv ai fuel _ _ _ _ _ _ Hr) as (_ & _ & Hidx).
    destruct (Hidx Hev) as (i & -> & Hi). eauto.
Qed.

Lemma selectMove_legal_witness :
  exists i,
    selectMove X 10 [Some X; Some O; None; Some O; Some X; None; None; None; None]
    = Some (Some i, [Some X; Some O; None; Some O; Some X; None; None; None; None]) /\
    [Some X; Some O; None; Some O; Some X; None; None; None; None] !! i = Some None.
Proof.
  apply selectMove_legal.
  - reflexivity.
  - reflexivity.
  - exists 2%nat. reflexivity.
  - vm_compute. lia.
Defined.

(** C8 (blocking scenario): on the board [X,O,_, O,X,_, _,_,_] with the
    computer playing O, the move selector returns index 8, for every fuel
    above the five empty cells. *)
Theorem selectMove_blocks_diagonal (fuel : nat) :
  (5 < fuel)%nat ->
  selectMove O fuel [Some X; Some O; None; Some O; Some X; None; None; None; None]
  = Some (Some 8%nat, [Some X; Some O; None; Some O; Some X; None; None; None; None]).
Proof.
  intros Hfuel. unfold selectMove.
  change (countMarks _ <=? 1)%nat with false. cbv iota.
  rewrite (minimax_fuel_mono O 6 fuel _ _ _ _
             (mkBest (Fin 0) (Some 8%nat),
              [Some X; Some O; None; Some O; Some X; None; None; None; None]));
    [done | lia | by vm_compute].
Qed.

Lemma selectMove_blocks_diagonal_witness :
  selectMove O 10 [Some X; Some O; None; Some O; Some X; None; None; None; None]
  = Some (Some 8%nat, [Some X; Some O; None; Some O; Some X; None; None; None; None]).
Proof. apply selectMove_blocks_diagonal. lia. Defined.

(** ** The game: fuel *)

Lemma selectMove_mono (ai : Mark) (fuel fuel' : nat) (b : Board) x :
  (fuel <= fuel')%nat ->
  selectMove ai fuel b = Some x -> selectMove ai fuel' b = Some x.
Proof.
  intros Hle. unfold selectMove. destruct (countMarks b <=? 1)%nat; [done|].
  destruct (minimax ai fuel b ai NegInf PosInf) as [[r b']|] eqn:E; [|discriminate].
  by rewrite (minimax_fuel_mono ai fuel fuel' _ _ _ _ _ Hle E).
Qed.

Lemma aiMove_mono (fuel fuel' : nat) (s s' : Session) :
  (fuel <= fuel')%nat ->
  aiMove fuel s = Ok s' -> aiMove fuel' s = Ok s'.
Proof.
  intros Hle. unfold aiMove.
  destruct (selectMove (aiMark s) fuel (board s)) as [x|] eqn:E; [|discriminate].
  by rewrite (selectMove_mono _ fuel fuel' _ _ Hle E).
Qed.

Lemma onCellClick_mono (fuel fuel' : nat) (idx : nat) (s s' : Session) :
  (fuel <= fuel')%nat ->
  onCellClick fuel idx s = Ok s' -> onCellClick fuel' idx s = Ok s'.
Proof.
  intros Hle. unfold onCellClick.
  destruct (gameOver s); [done|].
  destruct (truthy (cellAt (board s) idx)); [done|].
  destruct (placeMark (Some idx) (current s) s) as [s1| |]; simpl; try done.
  destruct (handleEndIfAny (evaluateBoard (board s1)) s1) as [[] s2]; [done|].
  destruct (_ && _); [|done]. by apply aiMove_mono.
Qed.

Lemma clicks_mono (fuel fuel' : nat) (idxs : list nat) :
  (fuel <= fuel')%nat ->
  forall s s', clicks fuel idxs s = Ok s' -> clicks fuel' idxs s = Ok s'.
Proof.
  intros Hle. induction idxs as [|idx rest IH]; intros s s'; simpl; [done|].
  destruct (onCellClick fuel idx s) as [s1| |] eqn:E; [|by simpl..].
  rewrite (onCellClick_mono fuel fuel' idx s s1 Hle E). simpl. apply IH.
Qed.

Lemma playGame_mono (fuel fuel' : nat) (human : Mark) (idxs : list nat) (s : Session) :
  (fuel <= fuel')%nat ->
  playGame fuel human idxs = Ok s -> playGame fuel' human idxs = Ok s.
Proof.
  intros Hle. unfold playGame, init.
  destruct (_ && _).
  - destruct (aiMove fuel _) as [s0| |] eqn:E; [|by simpl..].
    rewrite (aiMove_mono fuel fuel' _ s0 Hle E). simpl. by apply clicks_mono.
  - simpl. by apply clicks_mono.
Qed.

(** ** The game: the computer never loses *)

Lemma allGamesSound_clicks (human : Mark) (fuel : nat) (idxs : list nat) :
  Forall (fun i => (i < 9)%nat) idxs ->
  forall depth s,
    allGamesSound human depth fuel s = true ->
    exists s', clicks fuel idxs s = Ok s' /\ sessionSound human s' = true.
Proof.
  induction 1 as [|idx rest Hidx _ IH]; intros depth s Hs.
  - exists s. split; [done|].
    destruct depth; cbn [allGamesSound] in Hs; by apply andb_prop in Hs as [? _].
  - simpl. unfold onCellClick at 1.
    destruct (gameOver s) eqn:Hover; [simpl; by eapply IH|].
    destruct (truthy (cellAt (board s) idx)) eqn:Hfilled; [simpl; by eapply IH|].
    destruct depth as [|d]; cbn [allGamesSound] in Hs;
      apply andb_prop in Hs as [_ Hs]; rewrite Hover in Hs; cbn [orb] in Hs;
      [discriminate|].
    rewrite forallb_forall in Hs. specialize (Hs idx).
    rewrite Hfilled in Hs. unfold onCellClick in Hs at 1.
    rewrite Hover, Hfilled in Hs.
    match type of Hs with
    | _ -> match ?c with _ => _ end = true => destruct c as [s1| |] eqn:E
    end.
    + simpl. apply (IH d). apply Hs. apply in_seq. lia.
    + exfalso. assert (false = true); [|done]. apply Hs, in_seq. lia.
    + exfalso. assert (false = true); [|done]. apply Hs, in_seq. lia.
Qed.

Lemma sessionSound_spec (human : Mark) (s : Session) :
  sessionSound human s = true ->
  humanMark s = human /\ aiMark s = other human /\
  (forall w l, evaluateBoard (board s) = Won w l -> w = other human) /\
  (gameOver s = true ->
   evaluateBoard (board s) = Draw \/
   exists l, evaluateBoard (board s) = Won (other human) l) /\
  (gameOver s = false -> evaluateBoard (board s) = Ongoing).
Proof.
  unfold sessionSound, mark_eqb. intros H.
  apply andb_prop in H as [H Hev]. apply andb_prop in H as [Hh Ha].
  apply bool_decide_eq_true in Hh, Ha. split_and!; [done..| | |].
  - intros w l E. rewrite E in Hev. apply andb_prop in Hev as [Hw _].
    by apply bool_decide_eq_true in Hw.
  - intros Hover. destruct (evaluateBoard (board s)) as [w l| |]; [|by left|].
    + apply andb_prop in Hev as [Hw _]. apply bool_decide_eq_true in Hw as ->.
      right. by exists l.
    + by rewrite Hover in Hev.
  - intros Hover. destruct (evaluateBoard (board s)) as [w l| |]; [| |done].
    + apply andb_prop in Hev as [_ Hev]. by rewrite Hover in Hev.
    + by rewrite Hover in Hev.
Qed.

(** Every game of five accepted clicks at most, checked by running
    the session on all of them. *)
Lemma allGamesSound_init (human : Mark) :
  exists s, init 10 AI human = Ok s /\ allGamesSound human 5 10 s = true.
Proof.
  destruct human.
  - eexists. split; [reflexivity|]. vm_compute. reflexivity.
  - eexists. split; [vm_compute; reflexivity|]. vm_compute. reflexivity.
Qed.

Lemma allGamesSound_legal (human : Mark) (fuel fuel' : nat) (idxs : list nat) :
  (fuel <= fuel')%nat ->
  forall depth s,
    allGamesSound human depth fuel s = true ->
    legalClicks fuel' idxs s ->
    (length idxs <= depth)%nat.
Proof.
  intros Hle. induction idxs as [|idx rest IH]; intros depth s Hs; simpl; [lia|].
  intros (Hidx & Hover & Hcell & Hrest).
  destruct depth as [|d]; cbn [allGamesSound] in Hs;
    apply andb_prop in Hs as [_ Hs]; rewrite Hover in Hs; cbn [orb] in Hs;
    [discriminate|].
  rewrite forallb_forall in Hs. specialize (Hs idx).
  rewrite Hcell in Hs. cbn [truthy] in Hs.
  destruct (onCellClick fuel idx s) as [s1| |] eqn:E.
  - rewrite (onCellClick_mono fuel fuel' idx s s1 Hle E) in Hrest.
    assert (length rest <= d)%nat; [|lia].
    apply (IH d s1); [|done]. apply Hs, in_seq. lia.
  - exfalso. assert (false = true); [|done]. apply Hs, in_seq. lia.
  - exfalso. assert (false = true); [|done]. apply Hs, in_seq. lia.
Qed.

(** C1 (unbeatability): in a game against the computer, started by
    [init] for either mark of the opponent and continued by any clicks on
    the nine cells, every call returns (given fuel for the search), and
    the session reached is never won by the opponent: a board that is
    won is won by the computer's mark, a game that is over is a win of
    the computer or a draw, a game that is not over has a board that is
    neither.  A sequence of legal moves of the opponent has at most five
    moves, so every game ends. *)
Theorem computer_never_loses (human : Mark) (fuel : nat) (idxs : list nat) :
  (10 <= fuel)%nat ->
  Forall (fun i => (i < 9)%nat) idxs ->
  exists s0 s,
    init fuel AI human = Ok s0 /\
    clicks fuel idxs s0 = Ok s /\
    playGame fuel human idxs = Ok s /\
    humanMark s = human /\ aiMark s = other human /\
    (forall w l, evaluateBoard (board s) = Won w l -> w = other human) /\
    (gameOver s = true ->
     evaluateBoard (board s) = Draw \/
     exists l, evaluateBoard (board s) = Won (other human) l) /\
    (gameOver s = false -> evaluateBoard (board s) = Ongoing) /\
    (legalClicks fuel idxs s0 -> (length idxs <= 5)%nat).
Proof.
  intros Hfuel Hidxs.
  destruct (allGamesSound_init human) as (s0 & Hinit & Hall).
  destruct (allGamesSound_clicks human 10 idxs Hidxs 5 s0 Hall) as (s & Hs & Hsound).
  assert (Hplay : playGame 10 human idxs = Ok s).
  { unfold playGame. by rewrite Hinit. }
  apply (playGame_mono 10 fuel) in Hplay; [|done].
  apply (clicks_mono 10 fuel) in Hs; [|done].
  assert (Hinit' : init fuel AI human = Ok s0).
  { revert Hinit. unfold init. destruct (_ && _); [|done].
    by apply aiMove_mono. }
  exists s0, s. split_and!; try done; try apply (sessionSound_spec human s Hsound).
  by apply (allGamesSound_legal human 10 fuel idxs Hfuel 5 s0).
Qed.

(** The opponent plays X on 0, 8, 7, 2 and 3: the game ends in a draw. *)
Lemma computer_never_loses_witness :
  exists s0 s,
    init 10 AI X = Ok s0 /\
    clicks 10 [0; 8; 7; 2; 3]%nat s0 = Ok s /\
    playGame 10 X [0; 8; 7; 2; 3]%nat = Ok s /\
    humanMark s = X /\ aiMark s = other X /\
    (forall w l, evaluateBoard (board s) = Won w l -> w = other X) /\
    (gameOver s = true ->
     evaluateBoard (board s) = Draw \/
     exists l, evaluateBoard (board s) = Won (other X) l) /\
    (gameOver s = false -> evaluateBoard (board s) = Ongoing) /\
    (legalClicks 10 [0; 8; 7; 2; 3]%nat s0 -> (length [0; 8; 7; 2; 3]%nat <= 5)%nat).
Proof.
  apply (computer_never_loses X 10 [0; 8; 7; 2; 3]%nat).
  - lia.
  - repeat constructor; lia.
Defined.

(** * Further properties of the evaluator and of the session *)

(** ** The evaluator: what an outcome tells *)

Lemma scanLines_None (b : Board) (ls : list Line) :
  scanLines b ls = None -> forall l m, l ∈ ls -> ~ lineComplete b l m.
Proof.
  induction ls as [|l0 ls IH]; simpl; intros H l m Hin Hc.
  - by apply elem_of_nil in Hin.
  - destruct (lineWinner b l0) eqn:E; [done|].
    apply elem_of_cons in Hin as [->|Hin].
    + apply lineWinner_spec in Hc. congruence.
    + by apply (IH H l m).
Qed.

(** X1: a reported win is a real one: the line is one of [WINS], its
    three cells hold the winner, and no earlier line of [WINS] is
    complete; a draw is reported only on an array without an empty cell
    and without a complete line; a board reported as ongoing has an empty
    cell and no complete line.  This holds for every array. *)
Theorem evaluateBoard_sound (b : Board) :
  (forall w l, evaluateBoard b = Won w l -> l ∈ WINS /\ firstComplete b l w) /\
  (evaluateBoard b = Draw ->
   noLine b /\ forall i c, b !! i = Some c -> c <> None) /\
  (evaluateBoard b = Ongoing -> noLine b /\ exists i, b !! i = Some None).
Proof.
  unfold evaluateBoard. destruct (scanLines b WINS) as [r|] eqn:E.
  - apply scanLines_Some in E as (pre & post & l & m & Hw & -> & Hl & Hpre).
    split_and!; [|discriminate..].
    intros w l' [= <- <-]. split.
    + rewrite Hw. apply elem_of_app. right. left.
    + by exists pre, post.
  - pose proof (scanLines_None b WINS E) as Hno.
    destruct (boardFull b) eqn:F; split_and!; try discriminate.
    + intros _. split; [done|]. intros i c Hi ->.
      assert (boardFull b = false); [|congruence].
      apply boardFull_false. eauto.
    + intros _. split; [done|]. by apply boardFull_false.
Qed.

Lemma evaluateBoard_sound_witness :
  (0, 4, 8)%nat ∈ WINS /\
  firstComplete [Some O; Some X; None; Some X; Some O; None; None; Some X; Some O]
                (0, 4, 8)%nat O.
Proof.
  apply (proj1 (evaluateBoard_sound
                  [Some O; Some X; None; Some X; Some O; None; None; Some X; Some O])).
  reflexivity.
Defined.

(** ** The session: what a call that returns has done *)

Lemma minimax_terminal_index (ai : Mark) (fuel : nat) (b : Board) (p : Mark)
    (alpha beta : num) (r : Best) (b' : Board) :
  minimax ai fuel b p alpha beta = Some (r, b') ->
  evaluateBoard b <> Ongoing -> index r = None.
Proof.
  destruct fuel as [|fuel]; [discriminate|]. cbn [minimax].
  destruct (evaluateBoard b) as [w l| |]; [| |done].
  - destruct (mark_eqb w ai); by intros [= <- <-].
  - by intros [= <- <-].
Qed.

(** The index [selectMove] returns, when it returns one, is the index
    of a cell that reads empty, and the board comes back unchanged. *)
Lemma selectMove_Some (ai : Mark) (fuel : nat) (b b' : Board) (i : nat) :
  selectMove ai fuel b = Some (Some i, b') -> b' = b /\ cellAt b i = None.
Proof.
  unfold selectMove. destruct (countMarks b <=? 1)%nat.
  - destruct (List.find _ openingOrder) as [j|] eqn:Hfind; intros H; [|done].
    injection H as -> <-. split; [done|].
    apply List.find_some in Hfind as [_ H]. by destruct (cellAt b i).
  - destruct (minimax ai fuel b ai NegInf PosInf) as [[r b0]|] eqn:E; [|discriminate].
    intros [= Hidx <-].
    destruct (minimax_inv ai fuel _ _ _ _ _ _ E) as (-> & _ & Hon).
    split; [done|].
    destruct (evaluateBoard b) eqn:Eev.
    + rewrite (minimax_terminal_index _ _ _ _ _ _ _ _ E) in Hidx; [done|].
      by rewrite Eev.
    + rewrite (minimax_terminal_index _ _ _ _ _ _ _ _ E) in Hidx; [done|].
      by rewrite Eev.
    + destruct (Hon eq_refl) as (j & Hj & Hempty).
      rewrite Hidx in Hj. injection Hj as <-. unfold cellAt. by rewrite Hempty.
Qed.

Lemma aiMove_Ok (fuel : nat) (s s' : Session) :
  aiMove fuel s = Ok s' ->
  exists i, (i < 9)%nat /\ cellAt (board s) i = None /\
            s' = afterMove s (<[i := Some (aiMark s)]> (board s)).
Proof.
  unfold aiMove.
  destruct (selectMove (aiMark s) fuel (board s)) as [[[i|] b']|] eqn:E; try done.
  apply selectMove_Some in E as [-> Hempty].
  unfold placeMark. destruct (i <? 9)%nat eqn:Hi; [|done].
  apply Nat.ltb_lt in Hi. cbn [bind]. intros H. exists i. split_and!; [done..|].
  destruct s as [b c g m h a]. unfold afterMove. simpl in *.
  destruct (evaluateBoard (<[i:=Some a]> b)); simpl in H; by injection H as <-.
Qed.

Lemma onCellClick_Ok (fuel : nat) (idx : nat) (s s' : Session) :
  onCellClick fuel idx s = Ok s' ->
  (s' = s /\ (gameOver s = true \/ cellAt (board s) idx <> None)) \/
  (gameOver s = false /\ cellAt (board s) idx = None /\ (idx < 9)%nat /\
   let s1 := afterMove s (<[idx := Some (current s)]> (board s)) in
   if computerToMove s1 then aiMove fuel s1 = Ok s' else s' = s1).
Proof.
  unfold onCellClick. destruct (gameOver s) eqn:Hover.
  { intros [= <-]. left. auto. }
  destruct (cellAt (board s) idx) as [m|] eqn:Hcell; cbn [truthy].
  { intros [= <-]. left. split; [done|]. right. done. }
  unfold placeMark. destruct (idx <? 9)%nat eqn:Hi; [|done].
  apply Nat.ltb_lt in Hi. cbn [bind]. intros H. right. split_and!; [done..|].
  destruct s as [b c g m h a]. unfold afterMove, computerToMove. simpl in *.
  destruct (evaluateBoard (<[idx:=Some c]> b)); simpl in *.
  - rewrite andb_false_r. by injection H as <-.
  - rewrite andb_false_r. by injection H as <-.
  - destruct (_ && _); [done|]. by injection H as <-.
Qed.

Lemma afterMove_board (s : Session) (b : Board) : board (afterMove s b) = b.
Proof. unfold afterMove. by destruct (evaluateBoard b). Qed.

Lemma afterMove_fixed (s : Session) (b : Board) :
  mode (afterMove s b) = mode s /\ humanMark (afterMove s b) = humanMark s /\
  aiMark (afterMove s b) = aiMark s.
Proof. unfold afterMove. by destruct (evaluateBoard b). Qed.


(** ** The session: every call is a sequence of legal placements *)

Lemma placed_trans (s1 s2 s3 : Session) :
  placed s1 s2 -> placed s2 s3 -> placed s1 s3.
Proof.
  induction 1 as [|s s' i Hover Hcell Hi _ IH]; [done|].
  intros H. eapply placed_move; eauto.
Qed.

Lemma placed_one (s : Session) (i : nat) :
  gameOver s = false -> cellAt (board s) i = None -> (i < 9)%nat ->
  placed s (afterMove s (<[i := Some (current s)]> (board s))).
Proof. intros. eapply placed_move; eauto. apply placed_none. Qed.

Lemma computerToMove_true (s : Session) :
  computerToMove s = true ->
  mode s = AI /\ current s = aiMark s /\ gameOver s = false.
Proof.
  unfold computerToMove, mark_eqb. intros H.
  apply andb_prop in H as [H Hover]. apply andb_prop in H as [Hm Hc].
  apply bool_decide_eq_true in Hm, Hc. by destruct (gameOver s).
Qed.

Lemma aiMove_placed (fuel : nat) (s s' : Session) :
  computerToMove s = true -> aiMove fuel s = Ok s' -> placed s s'.
Proof.
  intros Hc H. apply computerToMove_true in Hc as (_ & Hcur & Hover).
  apply aiMove_Ok in H as (i & Hi & Hcell & ->). rewrite <- Hcur.
  by apply placed_one.
Qed.

Lemma onCellClick_placed (fuel : nat) (idx : nat) (s s' : Session) :
  onCellClick fuel idx s = Ok s' -> placed s s'.
Proof.
  intros H. apply onCellClick_Ok in H as [[-> _] | (Hover & Hcell & Hi & H)].
  - apply placed_none.
  - cbv zeta in H.
    destruct (computerToMove (afterMove s _)) eqn:Hc.
    + eapply placed_trans; [by apply placed_one|]. by eapply aiMove_placed.
    + subst s'. by apply placed_one.
Qed.

Lemma clicks_placed (fuel : nat) (idxs : list nat) (s s' : Session) :
  clicks fuel idxs s = Ok s' -> placed s s'.
Proof.
  revert s. induction idxs as [|idx rest IH]; intros s; simpl.
  - intros [= <-]. apply placed_none.
  - destruct (onCellClick fuel idx s) as [s1| |] eqn:E; [|done..]. simpl.
    intros H. eapply placed_trans; [by eapply onCellClick_placed|by apply IH].
Qed.

Lemma init_placed (fuel : nat) (m : Mode) (human : Mark) (s : Session) :
  init fuel m human = Ok s -> placed (startSession m human) s.
Proof.
  unfold init. fold (startSession m human).
  destruct (bool_decide (m = AI) && mark_eqb human O) eqn:E.
  - apply aiMove_placed. unfold computerToMove, startSession. simpl.
    apply andb_prop in E as [-> Hh]. unfold mark_eqb in *.
    apply bool_decide_eq_true in Hh as ->. done.
  - intros [= <-]. apply placed_none.
Qed.

Lemma game_placed (fuel : nat) (m : Mode) (human : Mark) (idxs : list nat)
    (s0 s : Session) :
  init fuel m human = Ok s0 -> clicks fuel idxs s0 = Ok s ->
  placed (startSession m human) s.
Proof.
  intros H0 H. eapply placed_trans; [by eapply init_placed|by eapply clicks_placed].
Qed.

(** ** The session: invariants of a game *)

Lemma boardFull_terminal (b : Board) :
  boardFull b = true -> evaluateBoard b <> Ongoing.
Proof.
  unfold evaluateBoard. intros ->.
  destruct (scanLines b WINS) as [r|] eqn:E; [|done].
  by apply scanLines_Some in E as (? & ? & ? & ? & _ & -> & _).
Qed.

Lemma afterMove_over (s : Session) (b : Board) :
  gameOver s = false ->
  (gameOver (afterMove s b) = true <-> evaluateBoard (board (afterMove s b)) <> Ongoing).
Proof.
  intros Hover. rewrite afterMove_board. unfold afterMove.
  destruct (evaluateBoard b); simpl; [done..|]. rewrite Hover. split; done.
Qed.

Lemma placed_over (s s' : Session) :
  placed s s' ->
  (gameOver s = true <-> evaluateBoard (board s) <> Ongoing) ->
  (gameOver s' = true <-> evaluateBoard (board s') <> Ongoing).
Proof.
  induction 1 as [|s s' i Hover Hcell Hi _ IH]; [done|].
  intros _. apply IH. by apply afterMove_over.
Qed.

Lemma placed_length (s s' : Session) :
  placed s s' -> length (board s') = length (board s).
Proof.
  induction 1 as [|s s' i Hover Hcell Hi _ IH]; [done|].
  by rewrite IH, afterMove_board, length_insert.
Qed.

(** X2: in every game, of either mode and for either mark of the
    opponent, after any clicks the flag [gameOver] is set exactly when
    the board is won or drawn; in particular a game on a full board is
    over, and the board keeps its nine cells. *)
Theorem gameOver_iff_terminal (fuel : nat) (m : Mode) (human : Mark)
    (idxs : list nat) (s0 s : Session) :
  init fuel m human = Ok s0 ->
  clicks fuel idxs s0 = Ok s ->
  (gameOver s = true <-> evaluateBoard (board s) <> Ongoing) /\
  (boardFull (board s) = true -> gameOver s = true) /\
  length (board s) = 9%nat.
Proof.
  intros H0 H. pose proof (game_placed _ _ _ _ _ _ H0 H) as Hp.
  assert (Hiff : gameOver s = true <-> evaluateBoard (board s) <> Ongoing).
  { apply (placed_over _ _ Hp). simpl. split; [done|]. by intros []. }
  split_and!; [done| |].
  - intros Hfull. by apply Hiff, boardFull_terminal.
  - by rewrite (placed_length _ _ Hp).
Qed.

(** Two players: X takes the first row. *)
Lemma gameOver_iff_terminal_witness :
  exists s,
    clicks 0 [0; 3; 1; 4; 2]%nat (startSession PvP X) = Ok s /\
    (gameOver s = true <-> evaluateBoard (board s) <> Ongoing) /\
    (boardFull (board s) = true -> gameOver s = true) /\
    length (board s) = 9%nat.
Proof.
  eexists. split; [by vm_compute|].
  apply (gameOver_iff_terminal 0 PvP X [0; 3; 1; 4; 2]%nat (startSession PvP X));
    by vm_compute.
Defined.

Lemma placed_keeps (s s' : Session) :
  placed s s' ->
  forall j m, board s !! j = Some (Some m) -> board s' !! j = Some (Some m).
Proof.
  induction 1 as [|s s' i Hover Hcell Hi _ IH]; [done|].
  intros j m Hj. apply IH. rewrite afterMove_board.
  rewrite list_lookup_insert_ne; [done|].
  intros ->. unfold cellAt in Hcell. by rewrite Hj in Hcell.
Qed.

Lemma placed_final (s s' : Session) :
  placed s s' -> gameOver s = true -> s' = s.
Proof. destruct 1 as [|s s' i Hover]; [done|]. by rewrite Hover. Qed.

(** X3: a mark on the board is never overwritten or cleared: a cell
    that holds a mark holds the same mark after any clicks, also after
    the moves of the computer that they set off, and after a call of
    [aiMove] on any session; once the game is over, clicks change
    nothing at all. *)
Theorem marks_never_overwritten (fuel : nat) (s s' : Session) :
  (forall idxs, clicks fuel idxs s = Ok s' ->
     (forall j m, board s !! j = Some (Some m) -> board s' !! j = Some (Some m)) /\
     (gameOver s = true -> s' = s)) /\
  (aiMove fuel s = Ok s' ->
     forall j m, board s !! j = Some (Some m) -> board s' !! j = Some (Some m)).
Proof.
  split.
  - intros idxs H. apply clicks_placed in H. split.
    + by apply placed_keeps.
    + by apply placed_final.
  - intros H j m Hj. apply aiMove_Ok in H as (i & Hi & Hcell & ->).
    rewrite afterMove_board, list_lookup_insert_ne; [done|].
    intros ->. unfold cellAt in Hcell. by rewrite Hj in Hcell.
Qed.

Lemma marks_never_overwritten_witness :
  exists s',
    clicks 10 [0; 8]%nat
      (mkSession [Some X; None; None; None; Some O; None; None; None; None]
                 X false AI X O) = Ok s' /\
    (forall j m,
        [Some X; None; None; None; Some O; None; None; None; None] !! j = Some (Some m) ->
        board s' !! j = Some (Some m)) /\
    (false = true ->
     s' = mkSession [Some X; None; None; None; Some O; None; None; None; None]
                    X false AI X O).
Proof.
  eexists. split; [by vm_compute|].
  apply (proj1 (marks_never_overwritten 10
                  (mkSession [Some X; None; None; None; Some O; None; None; None; None]
                             X false AI X O) _) [0; 8]%nat).
  by vm_compute.
Defined.







(** ** The session against the computer: whose turn it is *)





(** ** The session of two players *)

Lemma countMarks_insert_le (b : Board) (i : nat) (m : Mark) :
  (countMarks (<[i := Some m]> b) <= S (countMarks b))%nat.
Proof.
  unfold countMarks. revert i. induction b as [|c b IH]; intros i; [simpl; lia|].
  destruct i as [|i]; simpl.
  - destruct c; simpl; lia.
  - specialize (IH i). destruct c; simpl; lia.
Qed.

Lemma onCellClick_pvp (idx : nat) (s : Session) :
  mode s = PvP -> (idx < 9)%nat ->
  exists s',
    (forall fuel, onCellClick fuel idx s = Ok s') /\ mode s' = PvP /\
    (countMarks (board s') <= S (countMarks (board s)))%nat.
Proof.
  intros Hm Hi. unfold onCellClick, placeMark.
  destruct (gameOver s); [exists s; split_and!; [done..|lia]|].
  destruct (truthy (cellAt (board s) idx)); [exists s; split_and!; [done..|lia]|].
  apply Nat.ltb_lt in Hi as ->. cbn [bind].
  destruct s as [b c g m h a]. simpl in *. subst m.
  pose proof (countMarks_insert_le b idx c).
  destruct (evaluateBoard (<[idx:=Some c]> b)); simpl; eexists; split_and!; done.
Qed.

(** X6: a game of two players never calls the search and never fails:
    for clicks on the nine buttons every call returns, whatever the fuel
    (also none), the mode stays, and the board gains at most one mark per
    click. *)
Theorem pvp_game_runs (human : Mark) (idxs : list nat) :
  Forall (fun i => (i < 9)%nat) idxs ->
  exists s,
    (forall fuel,
        init fuel PvP human = Ok (startSession PvP human) /\
        clicks fuel idxs (startSession PvP human) = Ok s) /\
    mode s = PvP /\
    (countMarks (board s) <= length idxs)%nat.
Proof.
  intros Hidxs.
  assert (Hgen : forall s0, mode s0 = PvP ->
            exists s, (forall fuel, clicks fuel idxs s0 = Ok s) /\ mode s = PvP /\
                      (countMarks (board s) <= countMarks (board s0) + length idxs)%nat).
  { induction Hidxs as [|idx rest Hidx _ IH]; intros s0 Hm.
    - exists s0. split_and!; [done..|simpl; lia].
    - destruct (onCellClick_pvp idx s0 Hm Hidx) as (s1 & Hs1 & Hm1 & Hc1).
      destruct (IH s1 Hm1) as (s & Hs & Hms & Hcs).
      exists s. split_and!; [|done|simpl; lia].
      intros fuel. simpl. rewrite Hs1. simpl. apply Hs. }
  destruct (Hgen (startSession PvP human) eq_refl) as (s & Hs & Hm & Hc).
  exists s. split_and!; [|done|done].
  intros fuel. split; [done|apply Hs].
Qed.

Lemma pvp_game_runs_witness :
  exists s,
    (forall fuel,
        init fuel PvP O = Ok (startSession PvP O) /\
        clicks fuel [4; 4; 0; 2]%nat (startSession PvP O) = Ok s) /\
    mode s = PvP /\
    (countMarks (board s) <= length [4; 4; 0; 2]%nat)%nat.
Proof. apply pvp_game_runs. repeat constructor; lia. Defined.

(** ** The computer's move on a finished board *)

(** X7: called on a board that is won or drawn and holds more than one
    mark, [aiMove] ends in a [TypeError]: the search returns no index
    for such a board and [placeMark] is called with [undefined]. *)
Theorem aiMove_finished_board_throws (fuel : nat) (s : Session) :
  (1 < countMarks (board s))%nat ->
  evaluateBoard (board s) <> Ongoing ->
  aiMove (S fuel) s = TypeError.
Proof.
  intros Hmarks Hev. unfold aiMove, selectMove.
  assert ((countMarks (board s) <=? 1)%nat = false) as -> by (apply Nat.leb_gt; lia).
  cbn [minimax]. destruct (evaluateBoard (board s)) as [w l| |]; [| |done].
  - by destruct (mark_eqb w (aiMark s)).
  - done.
Qed.

Lemma aiMove_finished_board_throws_witness :
  aiMove 1 (mkSession [Some X; Some X; Some X; Some O; Some O; None; None; None; None]
                      O true AI X O) = TypeError.
Proof.
  apply (aiMove_finished_board_throws 0).
  - vm_compute. lia.
  - by vm_compute.
Defined.

(** * Further properties of the search *)

Lemma num_lt_le_trans (x y z : num) : num_lt x y -> num_le y z -> num_lt x z.
Proof. num_order. Qed.

Lemma num_le_lt_trans (x y z : num) : num_le x y -> num_lt y z -> num_lt x z.
Proof. num_order. Qed.

Lemma num_le_trans (x y z : num) : num_le x y -> num_le y z -> num_le x z.
Proof. num_order. Qed.

Lemma num_lt_le (x y : num) : num_lt x y -> num_le x y.
Proof. num_order. Qed.

Lemma num_ltb_leb (x y : num) : num_ltb x y = false -> num_le y x.
Proof. num_order. Qed.

Lemma isScore_max_NegInf (s : num) : isScore s -> num_max NegInf s = s.
Proof. by intros [-> | [-> | ->]]. Qed.

Lemma isScore_max (x y : num) :
  x = NegInf \/ isScore x -> isScore y -> isScore (num_max x y).
Proof.
  unfold isScore.
  intros [-> | [-> | [-> | ->]]] [-> | [-> | ->]]; vm_compute; auto.
Qed.

Lemma isScore_not_above (s : num) : isScore s -> num_leb PosInf s = false.
Proof. by intros [-> | [-> | ->]]. Qed.

Lemma isScore_below_PosInf (x : num) : x = NegInf \/ isScore x -> num_lt x PosInf.
Proof. by intros [-> | [-> | [-> | ->]]]. Qed.

(** ** The index the search returns at the root *)

Section RootMove.

Variable ai : Mark.

Lemma firstBest_later prec (p : Mark) (b : Board) (done : list nat) (i idx : nat)
    (s v : num) :
  firstBest prec p b done i s ->
  prec (<[idx := Some p]> b) (other p) = Some v -> num_le v s ->
  firstBest prec p b (done ++ [idx]) i s.
Proof.
  intros (pre & post & -> & Hi & Hpre & Hpost) Hv Hle.
  exists pre, (post ++ [idx]). split_and!; [by rewrite <- app_assoc|done..|].
  intros j Hj. apply elem_of_app in Hj as [Hj | Hj]; [by apply Hpost|].
  apply list_elem_of_singleton in Hj as ->. eauto.
Qed.

Lemma firstBest_better prec (p : Mark) (b : Board) (done : list nat) (i idx : nat)
    (s v : num) :
  firstBest prec p b done i s ->
  prec (<[idx := Some p]> b) (other p) = Some v -> num_lt s v ->
  firstBest prec p b (done ++ [idx]) idx v.
Proof.
  intros (pre & post & -> & Hi & Hpre & Hpost) Hv Hlt.
  exists (pre ++ i :: post), []. split_and!; [done..| |].
  - intros j Hj. apply elem_of_app in Hj as [Hj | Hj].
    + destruct (Hpre j Hj) as (w & Hw & Hws). exists w. split; [done|].
      eapply num_lt_le_trans; [done|]. by apply num_lt_le.
    + apply elem_of_cons in Hj as [-> | Hj].
      * eauto.
      * destruct (Hpost j Hj) as (w & Hw & Hws). exists w. split; [done|].
        by eapply num_le_lt_trans.
  - intros j Hj. by apply elem_of_nil in Hj.
Qed.

Lemma rootLoop_first rec prec (p : Mark) (b : Board) :
  mark_eqb p ai = true ->
  childrenAgree rec prec p b ->
  (forall idx alpha beta next bb,
      rec (<[idx:=Some p]> b) (other p) alpha beta = Some (next, bb) ->
      isScore (score next)) ->
  forall (rest done : list nat) best a,
    (forall i, i ∈ rest -> b !! i = Some None) ->
    a = num_max NegInf (score best) ->
    (done = [] /\ score best = NegInf) \/
    (isScore (score best) /\
     exists i, index best = Some i /\ firstBest prec p b done i (score best)) ->
    exists r,
      searchLoop ai rec p rest b a PosInf best = Some (r, b) /\
      ((done ++ rest = [] /\ r = best) \/
       (isScore (score r) /\
        exists i, index r = Some i /\ firstBest prec p b (done ++ rest) i (score r))).
Proof.
  intros Hp Hrec Hsc. induction rest as [|idx rest IH];
    intros done best a Hempty -> Hinv.
  - exists best. split; [done|]. rewrite app_nil_r.
    destruct Hinv as [[-> _] | Hinv]; auto.
  - assert (Hidx : b !! idx = Some None) by (apply Hempty; left).
    assert (Hrest : forall i, i ∈ rest -> b !! i = Some None).
    { intros i Hi. apply Hempty. by right. }
    assert (Hbs : score best = NegInf \/ isScore (score best)).
    { destruct Hinv as [[_ ?] | [? _]]; auto. }
    assert (Ha : num_max NegInf (score best) = score best).
    { destruct Hbs as [-> | Hbs]; [done|by apply isScore_max_NegInf]. }
    rewrite Ha. cbn [searchLoop].
    destruct (Hrec idx (score best) PosInf Hidx (isScore_below_PosInf _ Hbs))
      as (next & vc & Hcall & Hvc & Hw).
    rewrite Hcall. pose proof (Hsc _ _ _ _ _ Hcall) as Hs.
    rewrite place_undo by done. rewrite Hp. cbn [score].
    rewrite (isScore_not_above _ (isScore_max _ _ Hbs Hs)).
    destruct (IH (done ++ [idx])
                (if num_ltb (score best) (score next)
                 then mkBest (score next) (Some idx) else best)
                (num_max (score best) (score next)) Hrest) as (r & Hr & Hfin).
    + rewrite score_pick_max. symmetry. apply isScore_max_NegInf.
      by apply isScore_max.
    + right. destruct Hinv as [[-> Hneg] | (Hsb & i & Hi & Hfb)].
      * rewrite Hneg in *. rewrite (isScore_gt_NegInf _ Hs). cbn [score index].
        split; [done|]. exists idx. split; [done|].
        assert (vc = score next) as <- by by apply withinWindow_root.
        exists [], []. split_and!; [done..| |];
          intros j Hj; by apply elem_of_nil in Hj.
      * destruct (num_ltb (score best) (score next)) eqn:Hlt; cbn [score index].
        -- split; [done|]. exists idx. split; [done|].
           destruct Hw as (_ & _ & Hw).
           pose proof (Hw Hlt (isScore_lt_PosInf _ Hs)) as Heq.
           rewrite <- Heq. rewrite <- Heq in Hlt.
           exact (firstBest_better prec p b done i idx (score best) vc Hfb Hvc Hlt).
        -- split; [done|]. exists i. split; [done|].
           apply num_ltb_leb in Hlt. destruct Hw as (Hw & _ & _).
           eapply firstBest_later; [done..|].
           eapply num_le_trans; [by apply Hw|done].
    + exists r. split; [done|]. right.
      rewrite <- app_assoc in Hfin. simpl in Hfin.
      destruct Hfin as [[Hnil _] | Hfin]; [|done].
      by destruct done.
Qed.

End RootMove.

Lemma minimax_root_plain (ai : Mark) (fuel : nat) (b : Board) (p : Mark)
    (r : Best) (b' : Board) :
  (countEmpty b < fuel)%nat ->
  minimax ai fuel b p NegInf PosInf = Some (r, b') ->
  minimax_plain ai fuel b p = Some (score r).
Proof.
  intros Hfuel Hr.
  destruct (minimax_window ai fuel b p NegInf PosInf Hfuel eq_refl)
    as (r0 & v & Hr0 & Hv & Hw).
  rewrite Hr in Hr0. injection Hr0 as <- _. rewrite Hv. f_equal.
  apply withinWindow_root; [|done].
  by destruct (minimax_inv ai fuel _ _ _ _ _ _ Hr) as (_ & Hs & _).
Qed.

Lemma mark_eqb_refl (m : Mark) : mark_eqb m m = true.
Proof. unfold mark_eqb. by apply bool_decide_eq_true_2. Qed.

Lemma search_first_best (ai : Mark) (fuel : nat) (b : Board) :
  evaluateBoard b = Ongoing ->
  (countEmpty b <= fuel)%nat ->
  exists r i,
    minimax ai (S fuel) b ai NegInf PosInf = Some (r, b) /\
    index r = Some i /\
    minimax_plain ai (S fuel) b ai = Some (score r) /\
    firstBest (minimax_plain ai fuel) ai b (emptyCells b) i (score r) /\
    ((1 < countMarks b)%nat -> selectMove ai (S fuel) b = Some (Some i, b)).
Proof.
  intros Hev Hfuel.
  assert (Hrec : childrenAgree (minimax ai fuel) (minimax_plain ai fuel) ai b).
  { intros idx a be Hidx Hwin. apply minimax_window; [|done].
    pose proof (countEmpty_place b idx ai Hidx). lia. }
  assert (Hsc : forall idx alpha beta next bb,
             minimax ai fuel (<[idx:=Some ai]> b) (other ai) alpha beta = Some (next, bb) ->
             isScore (score next)).
  { intros idx a be next bb H. by apply minimax_inv in H as (_ & Hs & _). }
  assert (Hempty : forall i, i ∈ emptyCells b -> b !! i = Some None).
  { intros i. apply elem_of_emptyCells. }
  destruct (rootLoop_first ai _ _ ai b (mark_eqb_refl ai) Hrec Hsc
              (emptyCells b) [] (mkBest NegInf (head (emptyCells b))) NegInf
              Hempty eq_refl) as (r & Hr & Hfin).
  { left. done. }
  simpl in Hfin. destruct Hfin as [[Hnil _] | (Hs & i & Hi & Hfb)].
  { by apply evaluateBoard_Ongoing in Hev. }
  assert (Hmm : minimax ai (S fuel) b ai NegInf PosInf = Some (r, b)).
  { cbn [minimax]. by rewrite Hev, mark_eqb_refl. }
  exists r, i. split_and!; [done..| | |].
  - apply (minimax_root_plain ai (S fuel) b ai r b); [lia|done].
  - done.
  - intros Hmarks. unfold selectMove.
    assert ((countMarks b <=? 1)%nat = false) as -> by (apply Nat.leb_gt; lia).
    by rewrite Hmm, Hi.
Qed.

(** X8: the index the search returns for the computer is a best move,
    and the first one: on a board that is neither won nor drawn, the
    call [minimax(board, aiMark, -Infinity, Infinity)] returns the first
    empty cell, in increasing index order, whose position after the move
    has the highest minimax value (computed without the cutoff) among all
    moves; that value is the value of the board and the returned score.
    With more than one mark on the board this is the move of
    [selectMove]. *)
Theorem search_picks_first_best (ai : Mark) (fuel : nat) (b : Board) :
  evaluateBoard b = Ongoing ->
  (countEmpty b <= fuel)%nat ->
  exists r i,
    minimax ai (S fuel) b ai NegInf PosInf = Some (r, b) /\
    index r = Some i /\
    minimax_plain ai (S fuel) b ai = Some (score r) /\
    firstBest (minimax_plain ai fuel) ai b (emptyCells b) i (score r) /\
    ((1 < countMarks b)%nat -> selectMove ai (S fuel) b = Some (Some i, b)).
Proof. apply search_first_best. Qed.

Lemma search_picks_first_best_witness :
  exists r i,
    minimax O 6 [Some X; Some O; None; Some O; Some X; None; None; None; None]
            O NegInf PosInf
    = Some (r, [Some X; Some O; None; Some O; Some X; None; None; None; None]) /\
    index r = Some i /\
    minimax_plain O 6 [Some X; Some O; None; Some O; Some X; None; None; None; None] O
    = Some (score r) /\
    firstBest (minimax_plain O 5) O
              [Some X; Some O; None; Some O; Some X; None; None; None; None]
              (emptyCells [Some X; Some O; None; Some O; Some X; None; None; None; None])
              i (score r) /\
    ((1 < countMarks [Some X; Some O; None; Some O; Some X; None; None; None; None])%nat ->
     selectMove O 6 [Some X; Some O; None; Some O; Some X; None; None; None; None]
     = Some (Some i, [Some X; Some O; None; Some O; Some X; None; None; None; None])).
Proof.
  apply search_picks_first_best.
  - reflexivity.
  - vm_compute. lia.
Defined.

(** ** The opening *)

(** X9: the opening is the centre, or the corner 0 when the centre is
    taken: on a 9-cell board with at most one mark the move selector
    returns index 4 if that cell is empty and index 0 otherwise, never a
    later entry of its preference order. *)
Theorem opening_centre_or_corner (ai : Mark) (fuel : nat) (b : Board) :
  length b = 9%nat ->
  (countMarks b <= 1)%nat ->
  selectMove ai fuel b
  = Some (Some (if truthy (cellAt b 4) then 0%nat else 4%nat), b).
Proof.
  intros Hlen Hmarks. unfold selectMove. rewrite (proj2 (Nat.leb_le _ _) Hmarks).
  do 9 (destruct b as [|? b]; [discriminate|]). destruct b; [|discriminate].
  unfold countMarks in Hmarks.
  repeat match goal with c : option Mark |- _ => destruct c end;
    simpl in Hmarks; first [reflexivity | lia].
Qed.

Lemma opening_centre_or_corner_witness :
  selectMove O 0 [None; None; None; None; Some X; None; None; None; None]
  = Some (Some 0%nat, [None; None; None; None; Some X; None; None; None; None]).
Proof.
  apply (opening_centre_or_corner O 0
           [None; None; None; None; Some X; None; None; None; None]).
  - reflexivity.
  - vm_compute. lia.
Defined.

Lemma rootScore_plain (ai : Mark) (fuel : nat) (b : Board) (p : Mark) (v : num) :
  (countEmpty b < fuel)%nat ->
  rootScore ai fuel b p = Some v -> minimax_plain ai fuel b p = Some v.
Proof.
  unfold rootScore. intros Hfuel.
  destruct (minimax ai fuel b p NegInf PosInf) as [[r b']|] eqn:E; [|discriminate].
  intros [= <-]. by eapply minimax_root_plain.
Qed.

(** X10: the opening gives nothing away: on the empty board and on
    every board that holds one mark of the opponent, the minimax value of
    the board (computed without the cutoff, the computer to move) is 0,
    and so is the value of the position after the move of the opening. *)
Theorem opening_keeps_value (ai : Mark) (b : Board) :
  b = emptyBoard \/
  (exists j, (j < 9)%nat /\ b = <[j := Some (other ai)]> emptyBoard) ->
  exists i,
    selectMove ai 0 b = Some (Some i, b) /\
    minimax_plain ai 10 b ai = Some (Fin 0) /\
    minimax_plain ai 10 (<[i := Some ai]> b) (other ai) = Some (Fin 0).
Proof.
  intros [-> | (j & Hj & ->)].
  - exists 4%nat. destruct ai;
      (split_and!; [reflexivity | |];
       (apply rootScore_plain; [vm_compute; lia | vm_compute; reflexivity])).
  - exists (if (j =? 4)%nat then 0%nat else 4%nat).
    do 9 (destruct j as [|j];
          [destruct ai;
           (split_and!; [reflexivity | |];
            (apply rootScore_plain; [vm_compute; lia | vm_compute; reflexivity]))|]).
    lia.
Qed.

Lemma opening_keeps_value_witness :
  exists i,
    selectMove O 0 (<[0%nat := Some (other O)]> emptyBoard)
    = Some (Some i, <[0%nat := Some (other O)]> emptyBoard) /\
    minimax_plain O 10 (<[0%nat := Some (other O)]> emptyBoard) O = Some (Fin 0) /\
    minimax_plain O 10 (<[i := Some O]> (<[0%nat := Some (other O)]> emptyBoard)) (other O)
    = Some (Fin 0).
Proof.
  apply opening_keeps_value. right. exists 0%nat. split; [lia|reflexivity].
Defined.

(** ** The last cell *)

Lemma selectMove_empty_cell (ai : Mark) (fuel : nat) (b : Board) :
  length b = 9%nat ->
  evaluateBoard b = Ongoing ->
  (countEmpty b < fuel)%nat ->
  exists i, selectMove ai fuel b = Some (Some i, b) /\ b !! i = Some None.
Proof.
  intros Hlen Hev Hfuel. unfold selectMove.
  destruct (countMarks b <=? 1)%nat.
  - destruct (opening_found b Hlen) as [i Hi].
    { apply emptyCells_exists. apply evaluateBoard_Ongoing in Hev.
      unfold countEmpty. destruct (emptyCells b); [done|simpl; lia]. }
    rewrite Hi. exists i. split; [done|].
    pose proof (List.find_some _ _ Hi) as [Hin Hempty].
    apply cellAt_None.
    + rewrite Hlen. by apply openingOrder_lt, list_elem_of_In.
    + by destruct (cellAt b i).
  - destruct (minimax_total ai fuel b ai NegInf PosInf Hfuel) as [r Hr].
    rewrite Hr.
    destruct (minimax_inv ai fuel _ _ _ _ _ _ Hr) as (_ & _ & Hidx).
    destruct (Hidx Hev) as (i & -> & Hi). eauto.
Qed.

(** X11: when a single cell is left on a 9-cell board that is neither
    won nor drawn, the move selector returns that cell. *)
Theorem last_cell_chosen (ai : Mark) (fuel : nat) (b : Board) (i : nat) :
  length b = 9%nat ->
  evaluateBoard b = Ongoing ->
  emptyCells b = [i] ->
  (1 < fuel)%nat ->
  selectMove ai fuel b = Some (Some i, b).
Proof.
  intros Hlen Hev Hone Hfuel.
  destruct (selectMove_empty_cell ai fuel b Hlen Hev) as (j & Hj & Hempty).
  { unfold countEmpty. rewrite Hone. simpl. lia. }
  apply elem_of_emptyCells in Hempty. rewrite Hone in Hempty.
  by apply list_elem_of_singleton in Hempty as ->.
Qed.

Lemma last_cell_chosen_witness :
  selectMove X 2 [Some X; Some O; Some X; Some O; Some X; Some O; Some O; Some X; None]
  = Some (Some 8%nat,
          [Some X; Some O; Some X; Some O; Some X; Some O; Some O; Some X; None]).
Proof.
  apply last_cell_chosen; [reflexivity | reflexivity | reflexivity | lia].
Defined.

(** ** The value of a board does not depend on the fuel *)

Section PlainValue.

Variable ai : Mark.










End PlainValue.

(** ** The session: a won position is converted *)







Lemma other_other (m : Mark) : other (other m) = m.
Proof. by destruct m. Qed.






(** * Properties of the page *)

(** ** The buttons after a placement *)

Lemma cellAt_insert (b : Board) (i j : nat) (m : Mark) :
  (i < length b)%nat ->
  cellAt (<[i := Some m]> b) j = if decide (i = j) then Some m else cellAt b j.
Proof.
  intros Hi. unfold cellAt. destruct (decide (i = j)) as [<- | Hne].
  - by rewrite list_lookup_insert_eq.
  - by rewrite list_lookup_insert_ne.
Qed.

Lemma cellsShow_ext (s s' : Session) (cs : list Button) :
  board s' = board s -> gameOver s' = gameOver s ->
  cellsShow s cs -> cellsShow s' cs.
Proof. unfold cellsShow. by intros -> ->. Qed.

Lemma onWinningLine_Ongoing (b : Board) (i : nat) :
  evaluateBoard b = Ongoing -> onWinningLine b i = false.
Proof. unfold onWinningLine. by intros ->. Qed.

(** The buttons after [placeMark] on an empty cell of a running game
    whose board stays neither won nor drawn. *)
Lemma cells_after_place (s : Session) (cs : list Button) (i : nat) (m : Mark) :
  cellsShow s cs -> length (board s) = 9%nat ->
  gameOver s = false -> evaluateBoard (board s) = Ongoing ->
  (i < 9)%nat ->
  evaluateBoard (<[i := Some m]> (board s)) = Ongoing ->
  cellsShow (withBoard s (<[i := Some m]> (board s)))
            (alter (fun btn => mkButton (markText m) true (winning btn)) i cs).
Proof.
  intros [Hlen Hcs] Hb Hover Hev Hi Hev1. split; [by rewrite length_alter|].
  intros j btn. rewrite list_lookup_alter. simpl.
  rewrite cellAt_insert by lia. rewrite (onWinningLine_Ongoing _ j Hev1), Hover.
  destruct (decide (i = j)) as [<- | Hne].
  - destruct (cs !! i) as [btn0|] eqn:E; [|done]. intros [= <-]. simpl.
    destruct (Hcs i btn0 E) as (_ & _ & Hw).
    by rewrite Hw, (onWinningLine_Ongoing _ i Hev).
  - intros Hj. destruct (Hcs j btn Hj) as (Ht & Hd & Hw).
    by rewrite Ht, Hd, Hw, Hover, (onWinningLine_Ongoing _ j Hev).
Qed.

Lemma lookup_addWinning (k j : nat) (cs : list Button) :
  addWinning k cs !! j =
  (fun btn => mkButton (textContent btn) (disabled btn)
                       (bool_decide (j = k) || winning btn)) <$> cs !! j.
Proof.
  unfold addWinning. rewrite list_lookup_alter.
  destruct (decide (k = j)) as [<- | Hne].
  - rewrite bool_decide_eq_true_2 by done. done.
  - rewrite bool_decide_eq_false_2 by done.
    destruct (cs !! j) as [[t d w]|]; done.
Qed.

Lemma onLine_bool (j a b2 c : nat) :
  bool_decide (j = c) || (bool_decide (j = b2) || bool_decide (j = a))
  = bool_decide (j = a \/ j = b2 \/ j = c).
Proof.
  apply Bool.eq_iff_eq_true.
  rewrite !orb_true_iff, !bool_decide_eq_true. tauto.
Qed.

(** The buttons after [placeMark], [highlightWin] and [disableAll] on a
    board that the placement has won. *)
Lemma cells_after_win (s : Session) (cs : list Button) (i : nat) (m w : Mark) (l : Line) :
  cellsShow s cs -> length (board s) = 9%nat ->
  gameOver s = false -> evaluateBoard (board s) = Ongoing ->
  (i < 9)%nat ->
  evaluateBoard (<[i := Some m]> (board s)) = Won w l ->
  cellsShow (withGameOver (withBoard s (<[i := Some m]> (board s))) true)
    (cells (disableAll
              (highlightWin l
                 (mkPage s (alter (fun btn => mkButton (markText m) true (winning btn)) i cs)
                         "")))).
Proof.
  intros [Hlen Hcs] Hb Hover Hev Hi Hev1. destruct l as [[a b2] c].
  split; [simpl; unfold addWinning; by rewrite length_fmap, !length_alter|].
  intros j btn. simpl. rewrite list_lookup_fmap, !lookup_addWinning, list_lookup_alter.
  rewrite cellAt_insert by lia. unfold onWinningLine. rewrite Hev1.
  rewrite orb_true_r.
  destruct (decide (i = j)) as [<- | Hne].
  - destruct (cs !! i) as [btn0|] eqn:E; [|done]. intros [= <-]. simpl.
    destruct (Hcs i btn0 E) as (_ & _ & Hw).
    rewrite Hw, (onWinningLine_Ongoing _ i Hev), orb_false_r.
    split_and!; [done..|].
    apply onLine_bool.
  - destruct (cs !! j) as [btn0|] eqn:E; [|done]. intros [= <-]. simpl.
    destruct (Hcs j btn0 E) as (Ht & _ & Hw).
    rewrite Ht, Hw, (onWinningLine_Ongoing _ j Hev), orb_false_r.
    split_and!; [done..|].
    apply onLine_bool.
Qed.

(** The buttons after [placeMark] and [disableAll] on a board that the
    placement has filled without a line. *)
Lemma cells_after_draw (s : Session) (cs : list Button) (i : nat) (m : Mark) :
  cellsShow s cs -> length (board s) = 9%nat ->
  gameOver s = false -> evaluateBoard (board s) = Ongoing ->
  (i < 9)%nat ->
  evaluateBoard (<[i := Some m]> (board s)) = Draw ->
  cellsShow (withGameOver (withBoard s (<[i := Some m]> (board s))) true)
    (cells (disableAll
              (mkPage s (alter (fun btn => mkButton (markText m) true (winning btn)) i cs)
                      ""))).
Proof.
  intros [Hlen Hcs] Hb Hover Hev Hi Hev1.
  split; [simpl; by rewrite length_fmap, length_alter|].
  intros j btn. simpl. rewrite list_lookup_fmap, list_lookup_alter.
  rewrite cellAt_insert by lia. unfold onWinningLine. rewrite Hev1.
  rewrite orb_true_r.
  destruct (decide (i = j)) as [<- | Hne].
  - destruct (cs !! i) as [btn0|] eqn:E; [|done]. intros [= <-]. simpl.
    destruct (Hcs i btn0 E) as (_ & _ & Hw).
    by rewrite Hw, (onWinningLine_Ongoing _ i Hev).
  - destruct (cs !! j) as [btn0|] eqn:E; [|done]. intros [= <-]. simpl.
    destruct (Hcs j btn0 E) as (Ht & _ & Hw).
    by rewrite Ht, Hw, (onWinningLine_Ongoing _ j Hev).
Qed.

(** ** The page follows the session *)

(** [placeMark] and [handleEndIfAny] on the page, for a placement on an
    empty cell of a running game. *)
Lemma page_move (s : Session) (cs : list Button) (st : string) (i : nat) (m : Mark) :
  cellsShow s cs -> length (board s) = 9%nat ->
  gameOver s = false -> evaluateBoard (board s) = Ongoing ->
  (i < 9)%nat ->
  exists p1,
    placeMarkPage (Some i) m (mkPage s cs st) = Ok p1 /\
    session p1 = withBoard s (<[i := Some m]> (board s)) /\
    match evaluateBoard (<[i := Some m]> (board s)) with
    | Ongoing =>
        cellsShow (session p1) (cells p1) /\ statusText p1 = st
    | r =>
        exists p2,
          handleEndIfAnyPage r p1 = (true, p2) /\
          session p2 = withGameOver (session p1) true /\
          cellsShow (session p2) (cells p2) /\
          statusText p2 = statusOf (session p2)
    end.
Proof.
  intros Hcs Hb Hover Hev Hi.
  unfold placeMarkPage, placeMark. cbn [session cells statusText].
  rewrite (proj2 (Nat.ltb_lt _ _) Hi). cbn [bind].
  destruct (lookup_lt_is_Some_2 cs i) as [btn0 Hbtn]; [destruct Hcs; lia|].
  rewrite Hbtn. eexists. split; [done|]. split; [done|].
  cbn [session cells statusText].
  destruct (evaluateBoard (<[i:=Some m]> (board s))) as [w l| |] eqn:Hev1.
  - eexists. split; [done|]. split_and!.
    + by destruct w, l as [[a b2] c].
    + pose proof (cells_after_win s cs i m w l Hcs Hb Hover Hev Hi Hev1) as H.
      by destruct w, l as [[a b2] c].
    + unfold statusOf. destruct w, l as [[a b2] c]; simpl; by rewrite Hev1.
  - eexists. split; [done|]. split_and!.
    + done.
    + exact (cells_after_draw s cs i m Hcs Hb Hover Hev Hi Hev1).
    + unfold statusOf. simpl. by rewrite Hev1.
  - split; [|done]. by apply cells_after_place.
Qed.

Lemma aiMove_select (fuel : nat) (s : Session) :
  match selectMove (aiMark s) fuel (board s) with
  | None => aiMove fuel s = OutOfFuel
  | Some (None, _) => aiMove fuel s = TypeError
  | Some (Some i, b') =>
      b' = board s /\ cellAt (board s) i = None /\
      if (i <? 9)%nat
      then aiMove fuel s = Ok (afterMove s (<[i := Some (aiMark s)]> (board s)))
      else aiMove fuel s = TypeError
  end.
Proof.
  unfold aiMove.
  destruct (selectMove (aiMark s) fuel (board s)) as [[[i|] b']|] eqn:E; try done.
  apply selectMove_Some in E as [-> Hempty]. split_and!; [done..|].
  unfold placeMark. destruct (i <? 9)%nat; [|done]. cbn [bind].
  destruct s as [b c g m h a]. unfold afterMove. simpl.
  by destruct (evaluateBoard (<[i:=Some a]> b)).
Qed.

Lemma afterMove_pageShows (s : Session) (b : Board) (cs : list Button) (st : string) :
  length b = 9%nat -> gameOver s = false ->
  (mode s = AI ->
   aiMark s = other (humanMark s) /\
   (evaluateBoard b = Ongoing -> other (current s) = humanMark s)) ->
  cellsShow (afterMove s b) cs ->
  st = statusOf (afterMove s b) ->
  pageShows (mkPage (afterMove s b) cs st).
Proof.
  intros Hlen Hover Hai Hcs Hst. unfold pageShows. cbn [session cells statusText].
  rewrite afterMove_board. destruct (afterMove_fixed s b) as (-> & -> & ->).
  split_and!; [done | | | done | done].
  - pose proof (afterMove_over s b Hover) as H. by rewrite afterMove_board in H.
  - intros Hm. destruct (Hai Hm) as [Ha Hc]. split; [done|].
    unfold afterMove. destruct (evaluateBoard b); simpl; [done..|].
    intros _. by apply Hc.
Qed.

(** [aiMove] on the page does to the session what [aiMove] does, fails
    where it fails, and leaves a page that shows the session. *)
Lemma aiMovePage_sim (fuel : nat) (p : Page) :
  cellsShow (session p) (cells p) ->
  length (board (session p)) = 9%nat ->
  evaluateBoard (board (session p)) = Ongoing ->
  computerToMove (session p) = true ->
  aiMark (session p) = other (humanMark (session p)) ->
  match aiMove fuel (session p) with
  | Ok s' => exists p', aiMovePage fuel p = Ok p' /\ session p' = s' /\ pageShows p'
  | TypeError => aiMovePage fuel p = TypeError
  | OutOfFuel => aiMovePage fuel p = OutOfFuel
  end.
Proof.
  intros Hcs Hb Hev Hcm Ha.
  apply computerToMove_true in Hcm as (Hm & Hcur & Hover).
  destruct p as [[b c g m h a] cs st]. simpl in Hcs, Hb, Hev, Ha, Hm, Hcur, Hover.
  subst g m c a. set (s := mkSession b (other h) false AI h (other h)).
  cbn [session]. pose proof (aiMove_select fuel s) as Hsel. unfold aiMovePage.
  cbn [session cells statusText].
  destruct (selectMove (aiMark s) fuel (board s)) as [[[i|] b']|];
    [| by rewrite Hsel .. ].
  destruct Hsel as (-> & Hcell & Hsel).
  destruct (i <? 9)%nat eqn:Hi.
  2:{ rewrite Hsel. unfold placeMarkPage, placeMark. cbn [session]. by rewrite Hi. }
  apply Nat.ltb_lt in Hi. rewrite Hsel.
  change (withBoard s (board s)) with s.
  destruct (page_move s cs st i (aiMark s) Hcs Hb eq_refl Hev Hi)
    as (p1 & -> & Hs1 & Hrest).
  cbn [bind]. destruct p1 as [s1 cs1 st1]. cbn [session cells statusText] in *.
  subst s1. cbn [board withBoard].
  assert (Hai : mode s = AI ->
                aiMark s = other (humanMark s) /\
                (evaluateBoard (<[i:=Some (other h)]> b) = Ongoing ->
                 other (current s) = humanMark s)).
  { intros _. split; [done|]. intros _. simpl. apply other_other. }
  assert (Hlen1 : length (<[i:=Some (other h)]> b) = 9%nat)
    by by rewrite length_insert.
  pose proof (afterMove_pageShows s (<[i:=Some (other h)]> b)) as Hshow.
  unfold afterMove in Hshow |- *. cbn [aiMark s board] in Hrest, Hshow |- *.
  destruct (evaluateBoard (<[i:=Some (other h)]> b)) as [w l| |] eqn:Hev1.
  - destruct Hrest as ([s2 cs2 st2] & -> & Hs2 & Hcs2 & Hst2).
    cbn [session cells statusText] in Hs2, Hcs2, Hst2. subst s2.
    eexists. split; [done|]. split; [done|]. by apply Hshow.
  - destruct Hrest as ([s2 cs2 st2] & -> & Hs2 & Hcs2 & Hst2).
    cbn [session cells statusText] in Hs2, Hcs2, Hst2. subst s2.
    eexists. split; [done|]. split; [done|]. by apply Hshow.
  - destruct Hrest as (Hcs1 & Hst1). simpl. rewrite other_other, mark_eqb_refl.
    eexists. split; [done|]. split; [done|].
    simpl in Hshow. rewrite other_other in Hshow.
    apply Hshow; [done..| |].
    + eapply cellsShow_ext; [| |exact Hcs1]; done.
    + unfold statusOf. simpl. by rewrite Hev1.
Qed.

(** [onCellClick] on the page does to the session what [onCellClick]
    does, fails where it fails, and keeps a page that shows the session. *)
Lemma onCellClickPage_sim (fuel : nat) (idx : nat) (p : Page) :
  pageShows p ->
  match onCellClick fuel idx (session p) with
  | Ok s' => exists p', onCellClickPage fuel idx p = Ok p' /\ session p' = s' /\ pageShows p'
  | TypeError => onCellClickPage fuel idx p = TypeError
  | OutOfFuel => onCellClickPage fuel idx p = OutOfFuel
  end.
Proof.
  intros Hp. pose proof Hp as (Hb & Hiff & Hai & Hcs & Hst).
  destruct p as [s cs st]. cbn [session cells statusText] in *.
  unfold onCellClick, onCellClickPage. cbn [session].
  destruct (gameOver s) eqn:Hover; [by eexists|].
  destruct (truthy (cellAt (board s) idx)) eqn:Hcell; [by eexists|].
  assert (Hev : evaluateBoard (board s) = Ongoing).
  { destruct (evaluateBoard (board s)) eqn:E; [| |done];
      (assert (false = true) by (by apply Hiff)); done. }
  destruct (idx <? 9)%nat eqn:Hi.
  2:{ unfold placeMarkPage, placeMark. cbn [session]. by rewrite Hi. }
  unfold placeMark at 1. rewrite Hi. cbn [bind]. apply Nat.ltb_lt in Hi.
  destruct (page_move s cs st idx (current s) Hcs Hb Hover Hev Hi)
    as ([s1 cs1 st1] & -> & Hs1 & Hrest).
  cbn [bind session cells statusText] in *. subst s1.
  assert (Hlen1 : length (<[idx:=Some (current s)]> (board s)) = 9%nat)
    by by rewrite length_insert.
  pose proof (afterMove_pageShows s (<[idx:=Some (current s)]> (board s))) as Hshow.
  unfold afterMove in Hshow. cbn [board withBoard] in *.
  destruct (evaluateBoard (<[idx:=Some (current s)]> (board s))) as [w l| |] eqn:Hev1.
  - destruct Hrest as ([s2 cs2 st2] & -> & Hs2 & Hcs2 & Hst2).
    cbn [session cells statusText handleEndIfAny] in *. subst s2.
    eexists. split; [done|]. split; [done|]. apply Hshow; try done.
    intros Hm. by destruct (Hai Hm).
  - destruct Hrest as ([s2 cs2 st2] & -> & Hs2 & Hcs2 & Hst2).
    cbn [session cells statusText handleEndIfAny] in *. subst s2.
    eexists. split; [done|]. split; [done|]. apply Hshow; try done.
    intros Hm. by destruct (Hai Hm).
  - destruct Hrest as (Hcs1 & Hst1). subst st1.
    cbn [handleEndIfAnyPage handleEndIfAny session cells statusText].
    set (s3 := withCurrent (withBoard s (<[idx:=Some (current s)]> (board s)))
                           (other (current (withBoard s (<[idx:=Some (current s)]> (board s)))))).
    fold (computerToMove s3).
    destruct (computerToMove s3) eqn:Hcm.
    + pose proof (computerToMove_true _ Hcm) as (Hm3 & _ & _).
      apply (aiMovePage_sim fuel (mkPage s3 cs1 st)); cbn [session cells];
        [ eapply cellsShow_ext; [| |exact Hcs1]; done
        | by simpl | by simpl | done
        | destruct s; simpl in *; by destruct (Hai Hm3) ].
    + destruct s as [b c g m h a]. simpl in *. subst g.
      eexists. split; [done|].
      assert (Hpvp : m = PvP).
      { destruct m; [done|]. exfalso. destruct (Hai eq_refl) as [-> Hc].
        unfold s3, computerToMove, mark_eqb in Hcm. simpl in Hcm.
        rewrite (Hc eq_refl) in Hcm. by rewrite !bool_decide_eq_true_2 in Hcm. }
      subst m. unfold updateStatus. simpl. split; [done|].
      apply Hshow; try done. unfold statusOf. simpl. by rewrite Hev1.
Qed.

Lemma cellAt_replicate (n i : nat) : cellAt (replicate n None) i = None.
Proof.
  unfold cellAt. destruct (replicate n None !! i) as [c|] eqn:E; [|done].
  by apply lookup_replicate in E as [-> _].
Qed.

Lemma cellsShow_start (m : Mode) (human : Mark) (cs : list Button) :
  length cs = 9%nat ->
  cellsShow (startSession m human) ((fun _ => mkButton "" false false) <$> cs).
Proof.
  intros Hlen. split; [by rewrite length_fmap|].
  intros i btn. rewrite list_lookup_fmap.
  destruct (cs !! i); [|done]. intros [= <-].
  unfold startSession. cbn [textContent disabled winning board gameOver].
  by rewrite cellAt_replicate.
Qed.

(** [init] on the page does to the session what [init] does, fails
    where it fails, and leaves a page that shows the session. *)
Lemma initPage_sim (fuel : nat) (m : Mode) (checked : option Mark) (p : Page) :
  length (cells p) = 9%nat ->
  match init fuel m (getSelectedMark checked) with
  | Ok s0 => exists p0, initPage fuel m checked p = Ok p0 /\ session p0 = s0 /\ pageShows p0
  | TypeError => initPage fuel m checked p = TypeError
  | OutOfFuel => initPage fuel m checked p = OutOfFuel
  end.
Proof.
  intros Hlen. unfold init, initPage. cbv zeta.
  set (human := getSelectedMark checked). fold (startSession m human).
  pose proof (cellsShow_start m human (cells p) Hlen) as Hcs.
  destruct (bool_decide (m = AI) && mark_eqb human O) eqn:E.
  - apply andb_prop in E as [Hm Hh]. unfold mark_eqb in Hh.
    apply bool_decide_eq_true in Hm, Hh. subst m. rewrite Hh in *.
    by apply (aiMovePage_sim fuel
                (mkPage (startSession AI O) ((fun _ => mkButton "" false false) <$> cells p)
                        (statusText p))).
  - eexists. split; [done|]. split.
    + unfold updateStatus. simpl. by destruct m, (mark_eqb human human).
    + unfold pageShows, updateStatus. simpl. destruct m.
      * simpl. split_and!; [done | split; [done|by intros []] | done | done | done].
      * assert (human = X) as ->.
        { simpl in E. destruct human; [done|]. by vm_compute in E. }
        simpl. split_and!; [done | split; [done|by intros []] | done | done | done].
Qed.

Lemma clicksPage_sim (fuel : nat) (idxs : list nat) :
  forall p, pageShows p ->
  match clicks fuel idxs (session p) with
  | Ok s' => exists p', clicksPage fuel idxs p = Ok p' /\ session p' = s' /\ pageShows p'
  | TypeError => clicksPage fuel idxs p = TypeError
  | OutOfFuel => clicksPage fuel idxs p = OutOfFuel
  end.
Proof.
  induction idxs as [|idx rest IH]; intros p Hp; simpl.
  - by exists p.
  - pose proof (onCellClickPage_sim fuel idx p Hp) as H.
    destruct (onCellClick fuel idx (session p)) as [s1| |]; [|by rewrite H..].
    destruct H as (p1 & -> & <- & Hp1). simpl. by apply IH.
Qed.

(** Every page of a game shows its session. *)
Lemma game_pageShows (fuel : nat) (m : Mode) (checked : option Mark)
    (idxs : list nat) (p p0 p' : Page) :
  length (cells p) = 9%nat ->
  initPage fuel m checked p = Ok p0 ->
  clicksPage fuel idxs p0 = Ok p' ->
  pageShows p' /\
  init fuel m (getSelectedMark checked) = Ok (session p0) /\
  clicks fuel idxs (session p0) = Ok (session p').
Proof.
  intros Hlen H0 H.
  pose proof (initPage_sim fuel m checked p Hlen) as Hi. rewrite H0 in Hi.
  destruct (init fuel m (getSelectedMark checked)) as [s0| |]; [|done..].
  destruct Hi as (p0' & [= <-] & <- & Hp0).
  pose proof (clicksPage_sim fuel idxs p0 Hp0) as Hc. rewrite H in Hc.
  destruct (clicks fuel idxs (session p0)) as [s'| |]; [|done..].
  by destruct Hc as (p'' & [= <-] & <- & Hp').
Qed.

(** ** What the page shows *)



(** X14: the highlight marks the winning line and nothing else.  After
    [init] on a page with nine buttons and any clicks, a button has the
    class ['winning'] exactly when the board is won and the button is one
    of the three cells of the line that [evaluateBoard] reports. *)
Theorem winning_line_highlighted (fuel : nat) (m : Mode) (checked : option Mark)
    (idxs : list nat) (p p0 p' : Page) :
  length (cells p) = 9%nat ->
  initPage fuel m checked p = Ok p0 ->
  clicksPage fuel idxs p0 = Ok p' ->
  forall i btn, cells p' !! i = Some btn ->
    (winning btn = true <->
     exists w a b2 c,
       evaluateBoard (board (session p')) = Won w (a, b2, c) /\
       (i = a \/ i = b2 \/ i = c)).
Proof.
  intros Hlen H0 H i btn Hbtn.
  destruct (game_pageShows _ _ _ _ _ _ _ Hlen H0 H) as ((_ & _ & _ & [Hl Hcs] & _) & _).
  destruct (Hcs i btn Hbtn) as (_ & _ & ->). unfold onWinningLine.
  destruct (evaluateBoard (board (session p'))) as [w [[a b2] c]| |].
  - rewrite bool_decide_eq_true. split; [eauto 10|].
    by intros (? & ? & ? & ? & [= _ <- <- <-] & ?).
  - split; [done|]. by intros (? & ? & ? & ? & ? & _).
  - split; [done|]. by intros (? & ? & ? & ? & ? & _).
Qed.

Lemma winning_line_highlighted_witness :
  exists p',
    clicksPage 0 [0; 3; 1; 4; 2]%nat
      (mkPage (startSession PvP X) (replicate 9 (mkButton "" false false))
              "Turn: X") = Ok p' /\
    forall i btn, cells p' !! i = Some btn ->
      (winning btn = true <->
       exists w a b2 c,
         evaluateBoard (board (session p')) = Won w (a, b2, c) /\
         (i = a \/ i = b2 \/ i = c)).
Proof.
  eexists. split; [by vm_compute|].
  apply (winning_line_highlighted 0 PvP None [0; 3; 1; 4; 2]%nat
           (mkPage (startSession PvP O) (replicate 9 (mkButton "O" true true)) "O wins!")
           (mkPage (startSession PvP X) (replicate 9 (mkButton "" false false))
                   "Turn: X"));
    [reflexivity | by vm_compute | by vm_compute].
Defined.



(** X16: the writes to the page do not change the game.  On a page with
    nine buttons, [init] and the clicks with all their updates of the
    buttons and of the status line return exactly when the calls on the
    game state alone return, and with the same session: no update of the
    page fails, and none touches the board, the turn or the flags. *)
Theorem page_follows_session (fuel : nat) (m : Mode) (checked : option Mark)
    (idxs : list nat) (p : Page) :
  length (cells p) = 9%nat ->
  (forall s0 s,
      init fuel m (getSelectedMark checked) = Ok s0 ->
      clicks fuel idxs s0 = Ok s ->
      exists p0 p',
        initPage fuel m checked p = Ok p0 /\ clicksPage fuel idxs p0 = Ok p' /\
        session p0 = s0 /\ session p' = s) /\
  (forall p0 p',
      initPage fuel m checked p = Ok p0 ->
      clicksPage fuel idxs p0 = Ok p' ->
      init fuel m (getSelectedMark checked) = Ok (session p0) /\
      clicks fuel idxs (session p0) = Ok (session p')).
Proof.
  intros Hlen. split.
  - intros s0 s H0 H.
    pose proof (initPage_sim fuel m checked p Hlen) as Hi. rewrite H0 in Hi.
    destruct Hi as (p0 & Hp0 & <- & Hshow).
    pose proof (clicksPage_sim fuel idxs p0 Hshow) as Hc. rewrite H in Hc.
    destruct Hc as (p' & Hp' & <- & _). by exists p0, p'.
  - intros p0 p' H0 H. by destruct (game_pageShows _ _ _ _ _ _ _ Hlen H0 H) as (_ & ? & ?).
Qed.

Lemma page_follows_session_witness :
  exists p0 p',
    initPage 10 AI (Some O)
      (mkPage (startSession PvP O) (replicate 9 (mkButton "O" true true)) "O wins!")
    = Ok p0 /\
    clicksPage 10 [0; 8]%nat p0 = Ok p' /\
    session p0 = mkSession [None; None; None; None; Some X; None; None; None; None]
                           O false AI O X /\
    session p' = mkSession [Some O; Some X; Some X; None; Some X; None; None; None; Some O]
                           O false AI O X.
Proof.
  apply (proj1 (page_follows_session 10 AI (Some O) [0; 8]%nat
                  (mkPage (startSession PvP O) (replicate 9 (mkButton "O" true true))
                          "O wins!") eq_refl));
    by vm_compute.
Defined.
